(** * The dependency-graph engine of the Nexus Mods dependency analyzer

    A shallow embedding of [ModAnalyzer] (src/main.py): the cache-backed
    metadata store, the ignore/replace rules, the recursive tree builder,
    the breadth-first network builder, the missing-dependency analyzer and
    the priority-weighted topological sorter, with the properties the
    specification states about them.

    Conventions of the embedding.
    - A Python [str] is a [string]; [<] on [str] is the lexicographic order
      [String.ltb].  A Python [int] is a [Z].
    - A [dict] whose iteration order is observed ([folder_to_id],
      [in_degree], the missing report) is an insertion-ordered association
      list ([odict]); a [dict] that is only looked up is a [gmap]; a [set]
      is a [gset].
    - The analyzer object is split in two: the fields the algorithms only
      read ([ModAnalyzer]) and the state they mutate ([Store]).
    - Code that can raise returns in an exception monad; [while] loops take
      fuel, and running out of fuel is a distinct outcome. *)

From Stdlib Require Import ZArith String Ascii List Lia.
From stdpp Require Import base option list sets gmap strings relations sorting.

Local Open Scope string_scope.
Local Open Scope list_scope.
Local Open Scope Z_scope.

Set Warnings "-clear-no-such-hyp".

(** ** Python values *)

(** An insertion-ordered dictionary with string keys.  Assigning to an
    existing key keeps its position; assigning to a new key appends. *)
Module OrderedDict.
Section odict.
Context {V : Type}.

Definition odict : Type := list (string * V).

Fixpoint get (k : string) (d : odict) : option V :=
  match d with
  | [] => None
  | (k', v) :: d' => if decide (k = k') then Some v else get k d'
  end.

Fixpoint set (k : string) (v : V) (d : odict) : odict :=
  match d with
  | [] => [(k, v)]
  | (k', v') :: d' =>
      if decide (k = k') then (k, v) :: d' else (k', v') :: set k v d'
  end.

Definition keys (d : odict) : list string := d.*1.

End odict.
Global Arguments odict : clear implicits.
End OrderedDict.

Abbreviation odict := OrderedDict.odict.

(** ** Cached metadata

    A cache entry is the JSON object the analyzer stores per mod id.  Every
    key may be missing in an entry read back from disk, so each field is an
    [option]. *)

(** The ['timestamp'] string: [datetime.fromisoformat] either raises
    [ValueError] ([TsBad]) or yields a (naive) point in time, counted in
    microseconds. *)
Inductive Timestamp :=
  | TsBad
  | TsAt (t : Z).

(** One row of a requirement table: [{'name', 'url', 'notes'}]; ['notes']
    is read with [req.get('notes', '')]. *)
Record Requirement := mkRequirement {
  req_name : string;
  req_url : string;
  req_notes : option string
}.

Record Dependencies := mkDependencies {
  dep_requires : option (list Requirement);
  dep_required_by : option (list Requirement)
}.

Record Entry := mkEntry {
  e_name : option string;
  e_category : option string;
  e_timestamp : option Timestamp;
  e_error : option string;
  e_dependencies : option Dependencies
}.

(** [mod_data.get("dependencies", {}).get("requires", [])] *)
Definition requires_of (mod_data : Entry) : list Requirement :=
  match e_dependencies mod_data with
  | Some deps => default [] (dep_requires deps)
  | None => []
  end.

(** What the browser session hands back for one mod page: either the
    parsed page (title, last breadcrumb, the rows of the two requirement
    tables with their raw [href]) or the exception raised on the way. *)
Record ScrapedRow := mkScrapedRow {
  row_name : string;
  row_href : string;
  row_notes : string
}.

Inductive ScrapeResult :=
  | Scraped (mod_name category : string) (requires required_by : list ScrapedRow)
  | ScrapeFailed (message : string).

(** ** Settings ([PluginSettings]) *)

Record PluginSettings := mkSettings {
  CACHE_EXPIRATION_DAYS : Z;
  GAME_NAME : string
}.

Definition NEXUS_BASE_URL : string := "https://www.nexusmods.com".

Definition CATEGORY_PRIORITIES : odict Z :=
  [ ("VR", 10); ("Modders Resources", 10); ("Utilities", 10); ("Bug Fixes", 11);
    ("User Interface", 15); ("Gameplay", 20); ("Immersion", 21); ("Combat", 25);
    ("Stealth", 26); ("Skills and Leveling", 30); ("Magic - Gameplay", 35);
    ("Races, Classes, and Birthsigns", 36); ("Guilds/Factions", 40);
    ("Quests and Adventures", 50); ("Locations - New", 51); ("Dungeons", 52);
    ("Creatures and Mounts", 55); ("NPC", 58); ("Followers & Companions", 59);
    ("Weapons", 60); ("Armour", 61); ("Clothing and Accessories", 62);
    ("Items and Objects - Player", 65); ("Models and Textures", 70);
    ("Visuals and Graphics", 71); ("Environmental", 72); ("Animation", 75);
    ("Body, Face, and Hair", 78); ("Audio", 80); ("Presets - ENB and ReShade", 85);
    ("Overhauls", 90); ("Miscellaneous", 95); ("Patches", 99); ("Default", 50) ].

(** [timedelta(days=d)] in microseconds. *)
Definition timedelta_days (d : Z) : Z := d * 86400000000.

(** ** The analyzer *)

(** The fields of [ModAnalyzer] that the graph algorithms only read.
    [page] tells whether the browser page has been opened
    ([self.page] is not [None]). *)
Record ModAnalyzer := mkModAnalyzer {
  settings : PluginSettings;
  ignore_ids : gset string;
  replacement_map : gmap string string;
  folder_to_id : odict string;
  id_to_folders : gmap string (list string);
  installed_ids : gset string;
  page : bool
}.

Inductive exn :=
  | ConnectionError
  | KeyError (k : string)
  | IndexError.

(** Exceptions without state, for the pure parts. *)
Inductive res (A : Type) :=
  | Done (a : A)
  | Fail (e : exn).
Global Arguments Done {A} a.
Global Arguments Fail {A} e.

Global Instance res_ret : MRet res := λ A a, Done a.
Global Instance res_bind : MBind res := λ A B f m,
  match m with
  | Done a => f a
  | Fail e => Fail e
  end.

(** [d[k]] on a dictionary: [KeyError] when the key is missing. *)
Definition getitem {V} (k : string) (d : odict V) : res V :=
  match OrderedDict.get k d with
  | Some v => Done v
  | None => Fail (KeyError k)
  end.

(** [for x in l: s = body(x, s)] *)
Fixpoint for_res {A S} (l : list A) (body : A → S → res S) (s : S) : res S :=
  match l with
  | [] => mret s
  | x :: l' => s' ← body x s; for_res l' body s'
  end.

(** [wp_res r Q]: the pure computation [r] raises nothing and its result
    satisfies [Q]. *)
Definition wp_res {A} (r : res A) (Q : A → Prop) : Prop :=
  match r with
  | Done a => Q a
  | Fail _ => False
  end.

(** ** Sorting and the heap (Python built-ins)

    [sorted] is stable; it is modelled by a stable insertion sort over the
    comparison [le].  The order on [str] is [String.leb]; tuples compare
    lexicographically. *)

Fixpoint insert_sorted {A} (le : A → A → bool) (x : A) (l : list A) : list A :=
  match l with
  | [] => [x]
  | y :: l' => if le x y then x :: l else y :: insert_sorted le x l'
  end.

Definition sorted {A} (le : A → A → bool) (l : list A) : list A :=
  foldr (insert_sorted le) [] l.

(** [(a1, a2) <= (b1, b2)] on pairs of strings. *)
Definition pair_leb (a b : string * string) : bool :=
  String.ltb a.1 b.1 || (String.eqb a.1 b.1 && String.leb a.2 b.2).

(** The items of the ready queue are [(priority, folder)] tuples;
    [key_lt] is Python's [<] on them. *)
Definition key : Type := Z * string.

Definition key_lt (a b : key) : bool :=
  (a.1 <? b.1) || ((a.1 =? b.1) && String.ltb a.2 b.2).

(** [heapq] is modelled by its contract rather than by its array layout,
    which the analyzer never observes: the heap holds a multiset of items,
    [heappush] adds one, [heappop] removes and returns the least one
    ([None] stands for the [IndexError] on an empty heap). *)
Definition heappush (heap : list key) (item : key) : list key := item :: heap.

Fixpoint heappop (heap : list key) : option (key * list key) :=
  match heap with
  | [] => None
  | x :: heap' =>
      match heappop heap' with
      | Some (y, rest) => if key_lt y x then Some (y, x :: rest) else Some (x, heap')
      | None => Some (x, [])
      end
  end.

(** ** URLs *)

Definition is_digit (c : ascii) : bool :=
  (48 <=? nat_of_ascii c)%nat && (nat_of_ascii c <=? 57)%nat.

Fixpoint take_digits (s : string) : string :=
  match s with
  | String c s' => if is_digit c then String c (take_digits s') else EmptyString
  | EmptyString => EmptyString
  end.

Fixpoint strip_prefix (p s : string) : option string :=
  match p, s with
  | EmptyString, _ => Some s
  | String a p', String b s' => if decide (a = b) then strip_prefix p' s' else None
  | String _ _, EmptyString => None
  end.

(** A match of [/mods/(\d+)] anchored at the start of [s]: group 1. *)
Definition match_mods_here (s : string) : option string :=
  match strip_prefix "/mods/" s with
  | Some rest =>
      match take_digits rest with
      | EmptyString => None
      | digits => Some digits
      end
  | None => None
  end.

(** [re.search(r'/mods/(\d+)', url)]: the leftmost match, the digit run
    taken greedily.  Digits are the ASCII digits. *)
Fixpoint _extract_mod_id_from_url (url : string) : option string :=
  match match_mods_here url with
  | Some mod_id => Some mod_id
  | None =>
      match url with
      | String _ url' => _extract_mod_id_from_url url'
      | EmptyString => None
      end
  end.

(** ** Results of the analyses *)

Inductive Status := satisfied | missing | ignored | cycle.

(** A node of the dependency tree.  [node_replacement_info] is [None]
    both when the key holds [None] and when it is absent (the cycle node);
    [node_notes] is set by the parent on its children. *)
Local Unset Elimination Schemes.
Inductive Node := mkNode {
  node_id : string;
  node_name : string;
  node_children : list Node;
  node_status : Status;
  node_replacement_info : option (string * string);
  node_notes : option string
}.
Local Set Elimination Schemes.

Definition with_notes (notes : string) (n : Node) : Node :=
  mkNode (node_id n) (node_name n) (node_children n) (node_status n)
         (node_replacement_info n) (Some notes).

(** [n] occurs in the tree [t] (at the root or below). *)
Inductive in_tree (n : Node) : Node → Prop :=
  | in_tree_root : in_tree n n
  | in_tree_child t c : c ∈ node_children t → in_tree n c → in_tree n t.

(** An edge of the dependency network: [{'id', 'notes'}]. *)
Record Edge := mkEdge {
  edge_id : string;
  edge_notes : string
}.

Record ReportEntry := mkReportEntry {
  rep_name : string;
  rep_required_by_installed : list (string * string);
  rep_required_by_missing : list (string * string);
  rep_effective_id : string;
  rep_effective_name : option string
}.

(** [d[k].append(x)] on a [defaultdict(list)]. *)
Definition dd_append {V} (k : string) (x : V) (d : gmap string (list V))
    : gmap string (list V) :=
  <[k := default [] (d !! k) ++ [x]]> d.

(** [d.get(k, [])] *)
Definition get_list {V} (k : string) (d : gmap string (list V)) : list V :=
  default [] (d !! k).

(** ** The analyzer's algorithms *)

Section Model.

(** The world outside the analyzer: the wall clock and the browser
    session.  Both are oracles over an abstract world state, so successive
    calls may answer differently. *)
Context {World : Type}.
(** [datetime.now()], in microseconds. *)
Variable clock : World → Z * World.
(** Loading and parsing the page at a URL ([page.goto] up to the parsed
    requirement tables). *)
Variable scrape : string → World → ScrapeResult * World.
(** The order in which Python iterates over a [set] of strings. *)
Variable set_iter : gset string → list string.

(** The mutable state: the cache, the world, and [calls], a ghost history
    of the ids [get_mod_data] was asked for (never read by the code). *)
Record Store := mkStore {
  cache_data : gmap string Entry;
  world : World;
  calls : list string
}.

Inductive outcome (A : Type) :=
  | Ok (a : A) (σ : Store)
  | Raise (e : exn) (σ : Store)
  | OutOfFuel.
Global Arguments Ok {A} a σ.
Global Arguments Raise {A} e σ.
Global Arguments OutOfFuel {A}.

Definition M (A : Type) : Type := Store → outcome A.

Global Instance M_ret : MRet M := λ A a σ, Ok a σ.
Global Instance M_bind : MBind M := λ A B f m σ,
  match m σ with
  | Ok a σ' => f a σ'
  | Raise e σ' => Raise e σ'
  | OutOfFuel => OutOfFuel
  end.

Definition raise {A} (e : exn) : M A := λ σ, Raise e σ.
Definition out_of_fuel {A} : M A := λ _, OutOfFuel.

Definition lift {A} (r : res A) : M A :=
  match r with
  | Done a => mret a
  | Fail e => raise e
  end.

(** [for x in l: s = body(x, s)] with effects. *)
Fixpoint for_each {A S} (l : list A) (body : A → S → M S) (s : S) : M S :=
  match l with
  | [] => mret s
  | x :: l' => s' ← body x s; for_each l' body s'
  end.

Definition datetime_now : M Z := λ σ,
  let '(t, w) := clock (world σ) in
  Ok t (mkStore (cache_data σ) w (calls σ)).

Definition page_scrape (url : string) : M ScrapeResult := λ σ,
  let '(r, w) := scrape url (world σ) in
  Ok r (mkStore (cache_data σ) w (calls σ)).

Definition cache_lookup (mod_id : string) : M (option Entry) := λ σ,
  Ok (cache_data σ !! mod_id) σ.

Definition cache_store (mod_id : string) (entry : Entry) : M unit := λ σ,
  Ok () (mkStore (<[mod_id := entry]> (cache_data σ)) (world σ) (calls σ)).

Definition record_call (mod_id : string) : M unit := λ σ,
  Ok () (mkStore (cache_data σ) (world σ) (calls σ ++ [mod_id])).

Variable self : ModAnalyzer.

Definition _is_cache_entry_valid (entry : Entry) : M bool :=
  match e_timestamp entry with
  | None => mret false
  | Some TsBad => mret false
  | Some (TsAt cache_time) =>
      now ← datetime_now;
      mret (bool_decide
              (now - cache_time < timedelta_days (CACHE_EXPIRATION_DAYS (settings self))))
  end.

(** The rows of one requirement table, with relative links made absolute. *)
Definition scrape_dep_section (rows : list ScrapedRow) : list Requirement :=
  map (λ row,
         let dep_url := if String.prefix "http" (row_href row) then row_href row
                        else NEXUS_BASE_URL +:+ row_href row in
         mkRequirement (row_name row) dep_url (Some (row_notes row))) rows.

(** The entry returned when the fetch raised. *)
Definition fetch_failed_entry (mod_id message : string) : Entry :=
  {| e_name := Some ("抓取失败: ID " +:+ mod_id);
     e_category := Some "Default";
     e_timestamp := None;
     e_error := Some message;
     e_dependencies := Some (mkDependencies None None) |}.

Definition mod_url (mod_id : string) : string :=
  NEXUS_BASE_URL +:+ "/" +:+ GAME_NAME (settings self) +:+ "/mods/" +:+ mod_id.

Definition get_mod_data (mod_id : string) : M Entry :=
  _ ← record_call mod_id;
  cached ← cache_lookup mod_id;
  hit ← match cached with
        | Some entry => _is_cache_entry_valid entry
        | None => mret false
        end;
  match cached, hit with
  | Some entry, true => mret entry
  | _, _ =>
      if negb (page self) then raise ConnectionError
      else
        r ← page_scrape (mod_url mod_id);
        match r with
        | Scraped mod_name category requires required_by =>
            now ← datetime_now;
            let new_entry :=
              {| e_name := Some mod_name;
                 e_category := Some category;
                 e_timestamp := Some (TsAt now);
                 e_error := None;
                 e_dependencies :=
                   Some (mkDependencies (Some (scrape_dep_section requires))
                                        (Some (scrape_dep_section required_by))) |} in
            _ ← cache_store mod_id new_entry;
            mret new_entry
        | ScrapeFailed message => mret (fetch_failed_entry mod_id message)
        end
  end.

Definition _get_effective_id (required_id : string) : string :=
  default required_id (replacement_map self !! required_id).

Definition _is_dependency_satisfied (required_id : string) : bool :=
  bool_decide (_get_effective_id required_id ∈ installed_ids self).

(** *** The dependency tree *)

(** [fuel] bounds the recursion depth. *)
Fixpoint _build_dependency_tree (fuel : nat) (mod_id : string)
    (visited_ids : gset string) : M Node :=
  match fuel with
  | O => out_of_fuel
  | S fuel' =>
      if decide (mod_id ∈ visited_ids) then
        mret (mkNode mod_id "检测到循环依赖" [] cycle None None)
      else
        let visited_ids := {[mod_id]} ∪ visited_ids in
        mod_data ← get_mod_data mod_id;
        let name := default ("ID: " +:+ mod_id) (e_name mod_data) in
        let effective_id := _get_effective_id mod_id in
        replacement_info ←
          (if decide (mod_id ≠ effective_id) then
             replacer_data ← get_mod_data effective_id;
             mret (Some (default ("ID " +:+ effective_id) (e_name replacer_data),
                         effective_id))
           else mret None);
        let status :=
          if decide (mod_id ∈ ignore_ids self) then ignored
          else if decide (effective_id ∈ installed_ids self) then satisfied
          else missing in
        match status, e_dependencies mod_data with
        | ignored, _ | cycle, _ | _, None =>
            mret (mkNode mod_id name [] status replacement_info None)
        | _, Some _ =>
            children ←
              for_each (requires_of mod_data)
                (λ req children,
                   match _extract_mod_id_from_url (req_url req) with
                   | Some req_id =>
                       child_node ← _build_dependency_tree fuel' req_id visited_ids;
                       mret (children ++
                               [with_notes (default "" (req_notes req)) child_node])
                   | None => mret children
                   end) [];
            mret (mkNode mod_id name children status replacement_info None)
        end
  end.

(** *** The dependency network *)

(** The state of the traversal: [graph], [reverse_graph], the queue
    [nodes_to_process]. *)
Definition Network : Type :=
  gmap string (list Edge) * gmap string (list Edge) * list string.

(** The body of the loop over the requirements of [current_id]. *)
Definition add_requirement (current_id : string) (processed_nodes : gset string)
    (req : Requirement) (st : Network) : M Network :=
  let '(graph, reverse_graph, nodes_to_process) := st in
  match _extract_mod_id_from_url (req_url req) with
  | Some req_id =>
      let notes := default "" (req_notes req) in
      let graph := dd_append current_id (mkEdge req_id notes) graph in
      let reverse_graph := dd_append req_id (mkEdge current_id notes) reverse_graph in
      let nodes_to_process :=
        if decide (req_id ∉ processed_nodes) then nodes_to_process ++ [req_id]
        else nodes_to_process in
      mret (graph, reverse_graph, nodes_to_process)
  | None => mret st
  end.

(** The [while nodes_to_process] loop; [fuel] bounds its iterations. *)
Fixpoint network_loop (fuel : nat) (st : Network) (processed_nodes : gset string)
    : M (gmap string (list Edge) * gmap string (list Edge) * gset string) :=
  match fuel with
  | O => out_of_fuel
  | S fuel' =>
      let '(graph, reverse_graph, nodes_to_process) := st in
      match nodes_to_process with
      | [] => mret (graph, reverse_graph, processed_nodes)
      | current_id :: nodes_to_process =>
          if decide (current_id ∈ processed_nodes) then
            network_loop fuel' (graph, reverse_graph, nodes_to_process) processed_nodes
          else
            let processed_nodes := {[current_id]} ∪ processed_nodes in
            mod_data ← get_mod_data current_id;
            st ← match e_dependencies mod_data with
                 | Some _ =>
                     for_each (requires_of mod_data)
                       (add_requirement current_id processed_nodes)
                       (graph, reverse_graph, nodes_to_process)
                 | None => mret (graph, reverse_graph, nodes_to_process)
                 end;
            network_loop fuel' st processed_nodes
      end
  end.

Definition _build_full_dependency_network (fuel : nat)
    : M (gmap string (list Edge) * gmap string (list Edge) * gset string) :=
  network_loop fuel (∅, ∅, set_iter (installed_ids self)) ∅.

(** *** Missing dependencies *)

Definition display_name (prefix mod_id : string) (mod_data : Entry) : string :=
  default (prefix +:+ mod_id) (e_name mod_data).

(** The body of the loop over the requirers of [unmet_id]. *)
Definition add_requirer (unmet_dependencies : gset string) (req_info : Edge)
    (st : list (string * string) * gset (string * string))
    : M (list (string * string) * gset (string * string)) :=
  let '(req_by_installed, req_by_missing) := st in
  let req_by_id := edge_id req_info in
  let notes := edge_notes req_info in
  if decide (req_by_id ∈ installed_ids self) then
    mret (req_by_installed
            ++ map (λ folder_name, (folder_name, notes))
                   (get_list req_by_id (id_to_folders self)),
          req_by_missing)
  else if decide (_get_effective_id req_by_id ∈ unmet_dependencies) then
    requirer ← get_mod_data req_by_id;
    mret (req_by_installed,
          {[ (display_name "ID " req_by_id requirer, req_by_id) ]} ∪ req_by_missing)
  else mret st.

(** The body of the loop over the unmet ids. *)
Definition report_unmet (unmet_dependencies : gset string)
    (reverse_graph : gmap string (list Edge)) (unmet_id : string)
    (missing_report : odict ReportEntry) : M (odict ReportEntry) :=
  '(req_by_installed, req_by_missing) ←
    for_each (get_list unmet_id reverse_graph) (add_requirer unmet_dependencies) ([], ∅);
  let effective_id := _get_effective_id unmet_id in
  unmet_data ← get_mod_data unmet_id;
  effective_name ←
    (if decide (unmet_id ≠ effective_id) then
       effective_data ← get_mod_data effective_id;
       mret (Some (display_name "ID " effective_id effective_data))
     else mret None);
  let report_entry :=
    {| rep_name := display_name "ID " unmet_id unmet_data;
       rep_required_by_installed :=
         sorted (λ x y, String.leb x.1 y.1) req_by_installed;
       rep_required_by_missing := sorted pair_leb (elements req_by_missing);
       rep_effective_id := effective_id;
       rep_effective_name := effective_name |} in
  mret (OrderedDict.set unmet_id report_entry missing_report).

Definition unmet (all_nodes : gset string) : gset string :=
  filter (λ nid, _is_dependency_satisfied nid = false ∧ nid ∉ ignore_ids self) all_nodes.

Definition _identify_missing_dependencies (all_nodes : gset string)
    (reverse_graph : gmap string (list Edge)) : M (odict ReportEntry) :=
  let unmet_dependencies := unmet all_nodes in
  if decide (unmet_dependencies = ∅) then mret []
  else
    for_each (sorted String.leb (elements unmet_dependencies))
      (report_unmet unmet_dependencies reverse_graph) [].

(** *** The topological sort *)

(** The induced graph over local names and the in-degree table. *)
Definition Precedence : Type := gmap string (list string) * odict Z.

(** The body of the loop over the folders backing the provider. *)
Definition add_provider_edge (dep_folder provider_folder : string)
    (st : Precedence) : res Precedence :=
  let '(graph, in_degree) := st in
  if decide (provider_folder ∈ OrderedDict.keys in_degree) then
    degree ← getitem dep_folder in_degree;
    mret (dd_append provider_folder dep_folder graph,
          OrderedDict.set dep_folder (degree + 1) in_degree)
  else mret st.

(** The body of the loop over the requirement edges of [dep_folder]'s id. *)
Definition add_requirement_edges (dep_folder : string) (req_info : Edge)
    (st : Precedence) : res Precedence :=
  let req_id := edge_id req_info in
  if negb (_is_dependency_satisfied req_id) then mret st
  else
    let actual_provider_id := _get_effective_id req_id in
    for_res (get_list actual_provider_id (id_to_folders self))
            (add_provider_edge dep_folder) st.

(** [{f: 0 for f in self.folder_to_id}] *)
Definition initial_in_degree : odict Z :=
  foldl (λ d f, OrderedDict.set f 0 d) [] (OrderedDict.keys (folder_to_id self)).

Definition build_precedence (full_graph : gmap string (list Edge)) : res Precedence :=
  for_res (folder_to_id self)
    (λ '(dep_folder, dep_id),
       for_res (get_list dep_id full_graph) (add_requirement_edges dep_folder))
    (∅, initial_in_degree).

(** [CATEGORY_PRIORITIES.get(mod_data.get("category", "Default"), 50)] *)
Definition category_priority (mod_data : Entry) : Z :=
  default 50 (OrderedDict.get (default "Default" (e_category mod_data))
                              CATEGORY_PRIORITIES).

Definition folder_priority (folder : string) : M Z :=
  mod_id ← lift (getitem folder (folder_to_id self));
  mod_data ← get_mod_data mod_id;
  mret (category_priority mod_data).

(** The body of the loop that fills the ready queue at the start. *)
Definition push_if_ready (item : string * Z) (ready_queue : list key)
    : M (list key) :=
  let '(folder, degree) := item in
  if decide (degree = 0) then
    priority ← folder_priority folder;
    mret (heappush ready_queue (priority, folder))
  else mret ready_queue.

(** The body of the loop over the successors of the emitted folder. *)
Definition release_successor (v_folder : string) (st : odict Z * list key)
    : M (odict Z * list key) :=
  let '(in_degree, ready_queue) := st in
  degree ← lift (getitem v_folder in_degree);
  let in_degree := OrderedDict.set v_folder (degree - 1) in_degree in
  degree ← lift (getitem v_folder in_degree);
  if decide (degree = 0) then
    v_prio ← folder_priority v_folder;
    mret (in_degree, heappush ready_queue (v_prio, v_folder))
  else mret (in_degree, ready_queue).

(** The state of the main loop: [in_degree], [ready_queue], [sorted_order]. *)
Definition SortState : Type := odict Z * list key * list string.

(** One iteration of [while ready_queue]. *)
Definition sort_step (graph : gmap string (list string)) (st : SortState)
    : M SortState :=
  let '(in_degree, ready_queue, sorted_order) := st in
  match heappop ready_queue with
  | None => raise IndexError
  | Some ((_, u_folder), ready_queue) =>
      let sorted_order := sorted_order ++ [u_folder] in
      '(in_degree, ready_queue) ←
        for_each (get_list u_folder graph) release_successor (in_degree, ready_queue);
      mret (in_degree, ready_queue, sorted_order)
  end.

(** [while ready_queue: ...]; [fuel] bounds the iterations. *)
Fixpoint sort_loop (fuel : nat) (graph : gmap string (list string))
    (st : SortState) : M SortState :=
  match fuel with
  | O => out_of_fuel
  | S fuel' =>
      match st.1.2 with
      | [] => mret st
      | _ :: _ => st' ← sort_step graph st; sort_loop fuel' graph st'
      end
  end.

(** [[f for f, d in in_degree.items() if d > 0]] *)
Definition cyclic_of (in_degree : odict Z) : list string :=
  (filter (λ item, 0 < item.2) in_degree).*1.

Definition _perform_topological_sort (fuel : nat)
    (full_graph : gmap string (list Edge)) : M (list string * list string) :=
  '(graph, in_degree) ← lift (build_precedence full_graph);
  ready_queue ← for_each in_degree push_if_ready [];
  '(in_degree, _, sorted_order) ← sort_loop fuel graph (in_degree, ready_queue, []);
  mret (sorted_order, cyclic_of in_degree).


(** The state in which the main loop starts. *)
Definition sort_start (full_graph : gmap string (list Edge))
    : M (gmap string (list string) * SortState) :=
  '(graph, in_degree) ← lift (build_precedence full_graph);
  ready_queue ← for_each in_degree push_if_ready [];
  mret (graph, (in_degree, ready_queue, [])).

(** *** Reasoning about runs *)

(** Whether the cache holds a valid entry for [mod_id], and the world after
    the check: the clock is read only when the entry has a timestamp that
    parses. *)
Definition cached_valid (σ : Store) (mod_id : string) : option Entry * World :=
  match cache_data σ !! mod_id with
  | Some entry =>
      match e_timestamp entry with
      | Some (TsAt cache_time) =>
          let '(now, w) := clock (world σ) in
          (if bool_decide (now - cache_time
                           < timedelta_days (CACHE_EXPIRATION_DAYS (settings self)))
           then Some entry else None, w)
      | _ => (None, world σ)
      end
  | None => (None, world σ)
  end.

(** [triple E F m Q σ]: started in [σ], [m] either returns a result and
    a store that satisfy [Q], or raises an exception allowed by [E], or
    runs out of fuel, which [F] must allow. *)
Definition triple {A} (E : exn → Prop) (F : Prop) (m : M A)
    (Q : A → Store → Prop) (σ : Store) : Prop :=
  match m σ with
  | Ok a σ' => Q a σ'
  | Raise e _ => E e
  | OutOfFuel => F
  end.

(** The only exception the algorithms let through: the [ConnectionError]
    of a missing browser page. *)
Definition benign (e : exn) : Prop := e = ConnectionError ∧ page self = false.

(** Total correctness: [m] does not run out of fuel, raises nothing but
    a benign exception, and [Q] holds when it returns. *)
Definition wp {A} (m : M A) (Q : A → Store → Prop) (σ : Store) : Prop :=
  triple benign False m Q σ.

(** Partial correctness: [Q] holds whenever [m] returns. *)
Definition wlp {A} (m : M A) (Q : A → Store → Prop) (σ : Store) : Prop :=
  triple (λ _, True) True m Q σ.

(** Every node of the tree [t] with an ignored id is an [ignored] leaf. *)
Definition ignored_are_leaves (t : Node) : Prop :=
  ∀ n, in_tree n t → node_id n ∈ ignore_ids self →
       node_status n = ignored ∧ node_children n = [].

(** The invariant of the network builder's loop.  [calls0] is the call
    history before the traversal; the calls made since are the ids
    expanded so far, each once. *)
Definition network_inv (calls0 : list string) (st : Network)
    (processed_nodes : gset string) (σ : Store) : Prop :=
  let '(graph, reverse_graph, nodes_to_process) := st in
  dom graph ⊆ processed_nodes
  ∧ dom reverse_graph ⊆ processed_nodes ∪ list_to_set nodes_to_process
  ∧ installed_ids self ⊆ processed_nodes ∪ list_to_set nodes_to_process
  ∧ processed_nodes ⊆ installed_ids self ∪ dom reverse_graph
  ∧ list_to_set nodes_to_process ⊆ installed_ids self ∪ dom reverse_graph
  ∧ ∃ expanded,
      calls σ = calls0 ++ expanded ∧ NoDup expanded
      ∧ list_to_set expanded = processed_nodes.

(** What the network builder promises about its result. *)
Definition network_post (calls0 : list string)
    (result : gmap string (list Edge) * gmap string (list Edge) * gset string)
    (σ : Store) : Prop :=
  let '(graph, reverse_graph, visited) := result in
  visited = dom graph ∪ dom reverse_graph ∪ installed_ids self
  ∧ ∃ expanded,
      calls σ = calls0 ++ expanded ∧ NoDup expanded
      ∧ list_to_set expanded = visited.

(** *** The induced graph of the sorter *)

(** The local names the sorter orders. *)
Definition local_names : list string := OrderedDict.keys (folder_to_id self).

(** The induced graph over local names, as [build_precedence] builds it. *)
Definition induced_graph (full_graph : gmap string (list Edge))
    : gmap string (list string) :=
  match build_precedence full_graph with
  | Done (graph, _) => graph
  | Fail _ => ∅
  end.

(** [precedence graph u v]: the graph has a precedence edge from [u] to [v]. *)
Definition precedence (graph : gmap string (list string)) (u v : string) : Prop :=
  v ∈ get_list u graph.



(** How often [v] occurs in a successor list. *)
Definition occurrences (v : string) (l : list string) : nat :=
  length (filter (λ x, x = v) l).

(** The edges into [v] from names not yet emitted, counted with their
    multiplicity. *)
Definition pending (graph : gmap string (list string)) (emitted : list string)
    (v : string) : nat :=
  sum_list (map (λ u, if decide (u ∈ emitted) then 0%nat
                      else occurrences v (get_list u graph)) local_names).

(** Every edge of the graph joins two local names. *)
Definition graph_within (graph : gmap string (list string)) : Prop :=
  ∀ u v, precedence graph u v → u ∈ local_names ∧ v ∈ local_names.

(** The invariant of the edge-building loops: the in-degree table counts
    the edges built so far. *)
Definition precedence_inv (st : Precedence) : Prop :=
  let '(graph, in_degree) := st in
  OrderedDict.keys in_degree = local_names
  ∧ graph_within graph
  ∧ ∀ v, v ∈ local_names →
         OrderedDict.get v in_degree = Some (Z.of_nat (pending graph [] v)).

(** The invariant of the main loop, [todo] being the successors of the
    emitted folder still to be released (none between iterations): the
    in-degree of a name counts its edges from names not yet emitted, the
    names of in-degree zero are the emitted and the ready ones, each
    there once, and every emitted name comes after its predecessors. *)
Definition sort_inv (graph : gmap string (list string)) (todo : list string)
    (st : SortState) : Prop :=
  let '(in_degree, ready_queue, sorted_order) := st in
  OrderedDict.keys in_degree = local_names
  ∧ (∀ v, v ∈ local_names →
          OrderedDict.get v in_degree
          = Some (Z.of_nat (pending graph sorted_order v + occurrences v todo)))
  ∧ NoDup (sorted_order ++ ready_queue.*2)
  ∧ (∀ v, v ∈ sorted_order ++ ready_queue.*2 → v ∈ local_names)
  ∧ (∀ v, v ∈ local_names →
          (pending graph sorted_order v + occurrences v todo = 0)%nat
          ↔ v ∈ sorted_order ++ ready_queue.*2)
  ∧ (∀ l1 v l2, sorted_order = l1 ++ v :: l2 →
                ∀ u, precedence graph u v → u ∈ l1)
  ∧ (∀ item, item ∈ ready_queue → ∃ mod_data, item.1 = category_priority mod_data).

(** The edges the specification describes: [v] is a local name whose id
    has, among the requirement edges of [items], a satisfied one, and [u]
    is a local name backing the effective provider of that requirement. *)
Definition required_provider (full_graph : gmap string (list Edge))
    (items : list (string * string)) (u v : string) : Prop :=
  ∃ dep_id req_info,
    (v, dep_id) ∈ items
    ∧ req_info ∈ get_list dep_id full_graph
    ∧ _is_dependency_satisfied (edge_id req_info) = true
    ∧ u ∈ get_list (_get_effective_id (edge_id req_info)) (id_to_folders self)
    ∧ u ∈ local_names.

(** The analyzer with another ignore set. *)
Definition with_ignore_ids (ignore : gset string) : ModAnalyzer :=
  {| settings := settings self;
     ignore_ids := ignore;
     replacement_map := replacement_map self;
     folder_to_id := folder_to_id self;
     id_to_folders := id_to_folders self;
     installed_ids := installed_ids self;
     page := page self |}.

(** The full graph without its unsatisfied requirement edges. *)
Definition satisfied_edges (full_graph : gmap string (list Edge))
    : gmap string (list Edge) :=
  filter (λ req_info, _is_dependency_satisfied (edge_id req_info) = true) <$> full_graph.

(** *** Finite metadata universes *)

(** Every requirement link of the list points to an id of [U]. *)
Definition links_within (U : gset string) (reqs : list Requirement) : Prop :=
  ∀ req req_id,
    req ∈ reqs → _extract_mod_id_from_url (req_url req) = Some req_id → req_id ∈ U.

(** The metadata the analyzer can ever see, in the cache or on the
    catalog, mentions only the ids of the finite set [U], and no
    requirement list is longer than [B]. *)
Definition cache_within (U : gset string) (B : nat) (σ : Store) : Prop :=
  ∀ mod_id entry,
    cache_data σ !! mod_id = Some entry →
    links_within U (requires_of entry) ∧ (length (requires_of entry) ≤ B)%nat.

Definition catalog_within (U : gset string) (B : nat) : Prop :=
  ∀ url w mod_name category requires required_by w',
    scrape url w = (Scraped mod_name category requires required_by, w') →
    links_within U (scrape_dep_section requires) ∧ (length requires ≤ B)%nat.

End Model.

(** ** Concrete worlds and analyzers, used in the examples *)

Module Examples.

(** A world without state: the clock stands still and a fixed catalog
    answers for the ids it lists; every other page fails to load. *)
Definition clock0 : unit → Z * unit := λ w, (0, w).

Definition catalog_scrape (catalog : odict ScrapeResult) (url : string) (w : unit)
    : ScrapeResult * unit :=
  (match _extract_mod_id_from_url url with
   | Some mod_id =>
       default (ScrapeFailed "TimeoutError") (OrderedDict.get mod_id catalog)
   | None => ScrapeFailed "TimeoutError"
   end, w).

Definition settings0 : PluginSettings := mkSettings 7 "skyrimspecialedition".

Definition store0 : @Store unit := mkStore ∅ () [].

(** The end-to-end example of the specification: X (id 1, Utilities),
    Y (id 2, Gameplay, requires 1) and Z (id 3, Default). *)
Definition catalog_xyz : odict ScrapeResult :=
  [ ("1", Scraped "X" "Utilities" [] []);
    ("2", Scraped "Y" "Gameplay"
            [mkScrapedRow "X" "/skyrimspecialedition/mods/1" ""] []);
    ("3", Scraped "Z" "Default" [] []) ].

Definition analyzer_xyz : ModAnalyzer :=
  {| settings := settings0;
     ignore_ids := ∅;
     replacement_map := ∅;
     folder_to_id := [("X", "1"); ("Y", "2"); ("Z", "3")];
     id_to_folders := {[ "1" := ["X"]; "2" := ["Y"]; "3" := ["Z"] ]};
     installed_ids := {[ "1"; "2"; "3" ]};
     page := true |}.

Definition graph_xyz : gmap string (list Edge) := {[ "2" := [mkEdge "1" ""] ]}.

(** The rule file of the template: 44444 is replaced by 55555. *)
Definition analyzer_replace : ModAnalyzer :=
  {| settings := settings0;
     ignore_ids := ∅;
     replacement_map := {[ "44444" := "55555" ]};
     folder_to_id := [("Patch", "44444")];
     id_to_folders := {[ "44444" := ["Patch"] ]};
     installed_ids := {[ "44444" ]};
     page := true |}.

(** Mod 1 is installed and ignored, and its page lists a requirement;
    mod 2 requires it.  Mod 7 requires itself and is ignored. *)
Definition catalog_ignore : odict ScrapeResult :=
  [ ("1", Scraped "Base" "Utilities"
            [mkScrapedRow "Engine" "/skyrimspecialedition/mods/3" ""] []);
    ("2", Scraped "Addon" "Gameplay"
            [mkScrapedRow "Base" "/skyrimspecialedition/mods/1" "hard"] []);
    ("7", Scraped "Loop" "Patches"
            [mkScrapedRow "Loop" "/skyrimspecialedition/mods/7" ""] []) ].

Definition analyzer_ignore : ModAnalyzer :=
  {| settings := settings0;
     ignore_ids := {[ "1"; "7" ]};
     replacement_map := ∅;
     folder_to_id := [("Base", "1")];
     id_to_folders := {[ "1" := ["Base"] ]};
     installed_ids := {[ "1" ]};
     page := true |}.

Definition node_base_ignored : Node :=
  mkNode "1" "Base" [] ignored None (Some "hard").

Definition tree_addon : Node :=
  mkNode "2" "Addon" [node_base_ignored] missing None None.

(** The same catalog read by an analyzer that ignores nothing. *)
Definition analyzer_plain : ModAnalyzer :=
  {| settings := settings0;
     ignore_ids := ∅;
     replacement_map := ∅;
     folder_to_id := [("Base", "1")];
     id_to_folders := {[ "1" := ["Base"] ]};
     installed_ids := {[ "1" ]};
     page := true |}.

(** A installed as id 1 and B as id 2; B requires 1, and 1 is ignored. *)
Definition analyzer_ab : ModAnalyzer :=
  {| settings := settings0;
     ignore_ids := {[ "1" ]};
     replacement_map := ∅;
     folder_to_id := [("A", "1"); ("B", "2")];
     id_to_folders := {[ "1" := ["A"]; "2" := ["B"] ]};
     installed_ids := {[ "1"; "2" ]};
     page := true |}.

Definition graph_ab : gmap string (list Edge) := {[ "2" := [mkEdge "1" ""] ]}.

(** The two-cycle of the specification: A requires B and B requires A;
    C requires nothing. *)
Definition analyzer_cycle : ModAnalyzer :=
  {| settings := settings0;
     ignore_ids := ∅;
     replacement_map := ∅;
     folder_to_id := [("A", "1"); ("B", "2"); ("C", "3")];
     id_to_folders := {[ "1" := ["A"]; "2" := ["B"]; "3" := ["C"] ]};
     installed_ids := {[ "1"; "2"; "3" ]};
     page := true |}.

Definition graph_cycle : gmap string (list Edge) :=
  {[ "1" := [mkEdge "2" ""]; "2" := [mkEdge "1" ""] ]}.


End Examples.

(** * Properties *)

Import Examples.

(** * Facts *)

(** ** Ordered dictionaries *)

Section odict_facts.
Context {V : Type}.
Implicit Types (d : odict V) (k : string) (v : V).

Lemma od_get_Some_keys k d v : OrderedDict.get k d = Some v → k ∈ OrderedDict.keys d.
Proof.
  induction d as [|[k' v'] d IH]; simpl; [done|].
  destruct (decide (k = k')) as [->|]; intros; [left | right; auto].
Qed.

Lemma od_get_None_keys k d : OrderedDict.get k d = None ↔ k ∉ OrderedDict.keys d.
Proof.
  induction d as [|[k' v'] d IH]; simpl.
  - split; [intros _; apply not_elem_of_nil | done].
  - destruct (decide (k = k')) as [->|Hne].
    + split; [done | intros H; exfalso; apply H; left].
    + rewrite IH, not_elem_of_cons. tauto.
Qed.

Lemma od_keys_is_Some k d : k ∈ OrderedDict.keys d ↔ is_Some (OrderedDict.get k d).
Proof.
  destruct (OrderedDict.get k d) eqn:E.
  - split; [eauto | intros _; eapply od_get_Some_keys, E].
  - apply od_get_None_keys in E. split; [done | intros [? [=]]].
Qed.

Lemma od_get_set_eq k v d : OrderedDict.get k (OrderedDict.set k v d) = Some v.
Proof.
  induction d as [|[k' v'] d IH]; simpl.
  - by rewrite decide_True.
  - destruct (decide (k = k')); simpl; [by rewrite decide_True|].
    by rewrite decide_False.
Qed.

Lemma od_get_set_ne k k' v d :
  k ≠ k' → OrderedDict.get k' (OrderedDict.set k v d) = OrderedDict.get k' d.
Proof.
  intros Hne. induction d as [|[k0 v0] d IH]; simpl.
  - by rewrite decide_False.
  - destruct (decide (k = k0)) as [->|]; simpl.
    + by rewrite !decide_False.
    + destruct (decide (k' = k0)); [done | apply IH].
Qed.

Lemma od_keys_set_present k v d :
  k ∈ OrderedDict.keys d → OrderedDict.keys (OrderedDict.set k v d) = OrderedDict.keys d.
Proof.
  induction d as [|[k0 v0] d IH]; simpl.
  - intros H. by apply elem_of_nil in H.
  - intros H. destruct (decide (k = k0)) as [->|Hne]; simpl; [done|].
    f_equal. apply IH. by apply elem_of_cons in H as [|].
Qed.

Lemma od_keys_set_absent k v d :
  k ∉ OrderedDict.keys d →
  OrderedDict.keys (OrderedDict.set k v d) = OrderedDict.keys d ++ [k].
Proof.
  induction d as [|[k0 v0] d IH]; simpl; [done|].
  intros H. apply not_elem_of_cons in H as [Hne H].
  rewrite decide_False by done. simpl. f_equal. by apply IH.
Qed.

Lemma od_elem_of_keys_set k k' v d :
  k' ∈ OrderedDict.keys (OrderedDict.set k v d) ↔ k' = k ∨ k' ∈ OrderedDict.keys d.
Proof.
  destruct (decide (k ∈ OrderedDict.keys d)) as [Hin|Hnin].
  - rewrite od_keys_set_present by done. split; [tauto | intros [->|]; done].
  - rewrite od_keys_set_absent, elem_of_app, list_elem_of_singleton by done. tauto.
Qed.

Lemma od_get_elem_of k v d :
  NoDup (OrderedDict.keys d) → OrderedDict.get k d = Some v ↔ (k, v) ∈ d.
Proof.
  induction d as [|[k0 v0] d IH]; simpl; intros Hnd.
  - split; [done | intros H; by apply elem_of_nil in H].
  - apply NoDup_cons in Hnd as [Hk0 Hnd]. rewrite elem_of_cons, <- (IH Hnd).
    destruct (decide (k = k0)) as [->|Hne].
    + split; [intros [= ->]; by left | intros [[= ->]|H]; [done|]].
      apply od_get_Some_keys in H. done.
    + split; [tauto | intros [[= -> ->]|H]; done].
Qed.

End odict_facts.

(** ** The monad and its program logic *)

Section wp_rules.
Context {World : Type}.
Variable self : ModAnalyzer.
Local Abbreviation M := (@M World).
Local Abbreviation Store := (@Store World).
Implicit Types (σ : Store).

Lemma triple_ret {A} E F (a : A) (Q : A → Store → Prop) σ :
  Q a σ → triple E F (mret a : M A) Q σ.
Proof. done. Qed.

Lemma triple_bind {A B} E F (m : M A) (k : A → M B) (Q : B → Store → Prop) σ :
  triple E F m (λ a σ', triple E F (k a) Q σ') σ → triple E F (m ≫= k) Q σ.
Proof.
  unfold triple, mbind, M_bind. destruct (m σ); [done | done | done].
Qed.

Lemma triple_mono {A} E F (m : M A) (Q Q' : A → Store → Prop) σ :
  triple E F m Q σ → (∀ a σ', Q a σ' → Q' a σ') → triple E F m Q' σ.
Proof. unfold triple. destruct (m σ); auto. Qed.

Lemma triple_lift {A} E F (r : res A) (Q : A → Store → Prop) σ :
  wp_res r (λ a, Q a σ) → triple E F (lift r : M A) Q σ.
Proof. destruct r; simpl; [done | intros []]. Qed.

(** The loop rule: [I rest s σ] is the invariant before the items [rest]. *)
Lemma triple_for_each {A S} E F (I : list A → S → Store → Prop)
    (l : list A) (body : A → S → M S) (s : S) σ :
  I l s σ →
  (∀ x rest s σ, I (x :: rest) s σ → triple E F (body x s) (I rest) σ) →
  triple E F (for_each l body s) (I []) σ.
Proof.
  intros HI Hbody. revert s σ HI.
  induction l as [|x l IH]; intros s σ HI; simpl.
  - by apply triple_ret.
  - apply triple_bind. eapply triple_mono; [by apply Hbody|].
    intros s' σ' HI'. by apply IH.
Qed.

Lemma triple_returned {A} E F (m : M A) (Q : A → Store → Prop) σ a σ' :
  triple E F m Q σ → m σ = Ok a σ' → Q a σ'.
Proof. unfold triple. intros H Hm. by rewrite Hm in H. Qed.

Lemma wp_ok {A} (m : M A) (Q : A → Store → Prop) σ :
  page self = true → wp self m Q σ → ∃ a σ', m σ = Ok a σ' ∧ Q a σ'.
Proof.
  unfold wp, triple, benign. intros Hp. destruct (m σ) as [a σ'| |]; [eauto | |done].
  intros [_ ?]; congruence.
Qed.

Lemma wp_wlp {A} (m : M A) (Q : A → Store → Prop) σ :
  wp self m Q σ → wlp m Q σ.
Proof. unfold wp, wlp, triple. by destruct (m σ). Qed.

Lemma wp_res_bind {A B} (r : res A) (k : A → res B) (Q : B → Prop) :
  wp_res r (λ a, wp_res (k a) Q) → wp_res (r ≫= k) Q.
Proof. by destruct r. Qed.

Lemma wp_res_mono {A} (r : res A) (Q Q' : A → Prop) :
  wp_res r Q → (∀ a, Q a → Q' a) → wp_res r Q'.
Proof. destruct r; simpl; auto. Qed.

Lemma wp_for_res {A S} (I : list A → S → Prop) (l : list A)
    (body : A → S → res S) (s : S) :
  I l s →
  (∀ x rest s, I (x :: rest) s → wp_res (body x s) (I rest)) →
  wp_res (for_res l body s) (I []).
Proof.
  intros HI Hbody. revert s HI.
  induction l as [|x l IH]; intros s HI; simpl; [done|].
  apply wp_res_bind. eapply wp_res_mono; [by apply Hbody|].
  intros s' HI'. by apply IH.
Qed.

Lemma wp_res_getitem {V} k (d : odict V) (Q : V → Prop) :
  (∀ v, OrderedDict.get k d = Some v → Q v) →
  k ∈ OrderedDict.keys d → wp_res (getitem k d) Q.
Proof.
  intros HQ [v Hv]%od_keys_is_Some. unfold getitem. rewrite Hv. by apply HQ.
Qed.

End wp_rules.

(** ** The rules *)

(** C9. When no value of the replace map is itself a key of the map,
    [_get_effective_id] is idempotent; the lookup is a single hop: an id
    with an entry is sent to that entry's value, whatever the map holds
    for the value, and an id without an entry is sent to itself. *)
Theorem effective_id_idempotent (self : ModAnalyzer) :
  (∀ k v, replacement_map self !! k = Some v → replacement_map self !! v = None) →
  (∀ x, _get_effective_id self (_get_effective_id self x) = _get_effective_id self x)
  ∧ (∀ x v, replacement_map self !! x = Some v → _get_effective_id self x = v)
  ∧ (∀ x, replacement_map self !! x = None → _get_effective_id self x = x).
Proof.
  intros Hchain. unfold _get_effective_id. split; [|split].
  - intros x. destruct (replacement_map self !! x) as [v|] eqn:Hx; simpl.
    + by rewrite (Hchain _ _ Hx).
    + by rewrite Hx.
  - by intros x v ->.
  - by intros x ->.
Qed.

Lemma effective_id_idempotent_witness :
  _get_effective_id analyzer_replace (_get_effective_id analyzer_replace "44444")
  = _get_effective_id analyzer_replace "44444".
Proof.
  refine (proj1 (effective_id_idempotent analyzer_replace _) "44444").
  intros k v H. unfold analyzer_replace in H. simpl in H.
  apply lookup_singleton_Some in H as [<- <-]. reflexivity.
Defined.

(** Chains are not followed: with 1 replaced by 2 and 2 by 3, the
    effective id of 1 is 2. *)
Example effective_id_single_hop :
  let self := mkModAnalyzer settings0 ∅ {[ "1" := "2"; "2" := "3" ]} [] ∅ ∅ true in
  _get_effective_id self "1" = "2"
  ∧ _get_effective_id self (_get_effective_id self "1") = "3".
Proof. by vm_compute. Qed.

(** ** The metadata store *)

Section get_mod_data_facts.
Context {World : Type}.
Variable clock : World → Z * World.
Variable scrape : string → World → ScrapeResult * World.
Variable self : ModAnalyzer.
Local Abbreviation Store := (@Store World).
Implicit Types (σ : Store).

(** [cached_valid] is the condition of [get_mod_data]'s first line: the
    entry is there and [_is_cache_entry_valid] accepts it. *)
Lemma cached_valid_spec σ mod_id :
  match cache_data σ !! mod_id with
  | Some entry =>
      ∃ valid w,
        _is_cache_entry_valid clock self entry σ
          = Ok valid (mkStore (cache_data σ) w (calls σ))
        ∧ cached_valid clock self σ mod_id = (if valid then Some entry else None, w)
  | None => cached_valid clock self σ mod_id = (None, world σ)
  end.
Proof.
  unfold cached_valid, _is_cache_entry_valid.
  destruct (cache_data σ !! mod_id) as [entry|]; [|done].
  destruct (e_timestamp entry) as [[|t]|]; simpl.
  - exists false, (world σ). by destruct σ.
  - unfold mbind, M_bind, datetime_now.
    destruct (clock (world σ)) as [now w]. simpl. eauto.
  - exists false, (world σ). by destruct σ.
Qed.

(** An entry is valid exactly when its timestamp parses and is younger
    than the expiration window. *)
Lemma cached_valid_Some σ mod_id entry w :
  cached_valid clock self σ mod_id = (Some entry, w) ↔
  cache_data σ !! mod_id = Some entry
  ∧ ∃ cache_time,
      e_timestamp entry = Some (TsAt cache_time)
      ∧ (clock (world σ)).2 = w
      ∧ (clock (world σ)).1 - cache_time
        < timedelta_days (CACHE_EXPIRATION_DAYS (settings self)).
Proof.
  unfold cached_valid.
  destruct (cache_data σ !! mod_id) as [e|]; [|split; [done | by intros [? _]]].
  destruct (e_timestamp e) as [[|t]|] eqn:Ets.
  - split; [done | intros [[= ->] (? & ? & _)]; congruence].
  - destruct (clock (world σ)) as [now w0]. simpl. case_bool_decide.
    + split.
      * intros [= -> ->]. eauto.
      * intros [[= ->] (? & ? & <- & _)]. done.
    + split; [done|]. intros [[= ->] (t' & E & _ & ?)].
      rewrite Ets in E. by simplify_eq.
  - split; [done | intros [[= ->] (? & ? & _)]; congruence].
Qed.

(** [get_mod_data] in one equation: a valid cached entry is returned;
    otherwise, with a browser page, the page is fetched, stored when the
    fetch succeeded, and returned. *)
Lemma get_mod_data_run mod_id σ :
  get_mod_data clock scrape self mod_id σ
  = let called := calls σ ++ [mod_id] in
    match cached_valid clock self σ mod_id with
    | (Some cached, w) => Ok cached (mkStore (cache_data σ) w called)
    | (None, w) =>
        if page self then
          match scrape (mod_url self mod_id) w with
          | (Scraped mod_name category requires required_by, w') =>
              let new_entry :=
                {| e_name := Some mod_name;
                   e_category := Some category;
                   e_timestamp := Some (TsAt (clock w').1);
                   e_error := None;
                   e_dependencies :=
                     Some (mkDependencies (Some (scrape_dep_section requires))
                                          (Some (scrape_dep_section required_by))) |} in
              Ok new_entry
                 (mkStore (<[mod_id := new_entry]> (cache_data σ)) (clock w').2 called)
          | (ScrapeFailed message, w') =>
              Ok (fetch_failed_entry mod_id message)
                 (mkStore (cache_data σ) w' called)
          end
        else Raise ConnectionError (mkStore (cache_data σ) w called)
    end.
Proof.
  unfold get_mod_data, cached_valid, _is_cache_entry_valid,
    mbind, M_bind, mret, M_ret, record_call, cache_lookup, raise. simpl.
  destruct (cache_data σ !! mod_id) as [e|]; [destruct (e_timestamp e) as [[|t]|]|];
    unfold datetime_now; simpl;
    try (destruct (clock (world σ)) as [now w]; simpl; case_bool_decide; simpl);
    try done;
    (destruct (page self); simpl; [|done]);
    unfold page_scrape, datetime_now, cache_store; simpl;
    (match goal with
     | |- context [scrape ?u ?w] => destruct (scrape u w) as [[n c r rb|msg] w']
     end); simpl;
    try (destruct (clock w') as [now' w'']; simpl); done.
Qed.

(** C4 (amended). [get_mod_data] returns the cached entry when one is
    present and valid, and leaves the cache as it is.  Otherwise, with a
    browser page, it fetches: a fetched page is stored under the id and
    returned; a failed fetch raises nothing and yields an entry with the
    error marker and no requirement entries, which is returned but not
    stored (the cache is left as it is).  Without a browser page the miss
    raises [ConnectionError] before any fetch. *)
Theorem get_mod_data_contract mod_id σ :
  let called := calls σ ++ [mod_id] in
  match cached_valid clock self σ mod_id with
  | (Some cached, w) =>
      get_mod_data clock scrape self mod_id σ
        = Ok cached (mkStore (cache_data σ) w called)
  | (None, w) =>
      if page self then
        match scrape (mod_url self mod_id) w with
        | (Scraped mod_name category requires required_by, w') =>
            ∃ entry,
              get_mod_data clock scrape self mod_id σ
                = Ok entry (mkStore (<[mod_id := entry]> (cache_data σ))
                                    (clock w').2 called)
              ∧ e_name entry = Some mod_name
              ∧ e_category entry = Some category
              ∧ e_timestamp entry = Some (TsAt (clock w').1)
              ∧ e_error entry = None
              ∧ requires_of entry = scrape_dep_section requires
        | (ScrapeFailed message, w') =>
            ∃ entry,
              get_mod_data clock scrape self mod_id σ
                = Ok entry (mkStore (cache_data σ) w' called)
              ∧ e_error entry = Some message
              ∧ e_timestamp entry = None
              ∧ requires_of entry = []
        end
      else
        get_mod_data clock scrape self mod_id σ
          = Raise ConnectionError (mkStore (cache_data σ) w called)
  end.
Proof.
  intros called. rewrite get_mod_data_run. fold called.
  destruct (cached_valid clock self σ mod_id) as [[cached|] w]; [done|].
  destruct (page self); [|done].
  destruct (scrape (mod_url self mod_id) w) as [[n c r rb|msg] w'].
  - eexists. split; [reflexivity|]. by repeat split.
  - eexists. split; [reflexivity|]. by repeat split.
Qed.

End get_mod_data_facts.

(** C4, as stated, fails: a failed fetch is returned with its error
    marker but is not stored under the id. *)
Lemma get_mod_data_failure_not_stored :
  ∃ entry σ',
    get_mod_data clock0 (catalog_scrape []) analyzer_xyz "1" store0 = Ok entry σ'
    ∧ e_error entry = Some "TimeoutError"
    ∧ cache_data σ' !! "1" ≠ Some entry.
Proof. eexists _, _. split; [reflexivity|]. split; [reflexivity|]. by vm_compute. Qed.

Section tree_facts.
Context {World : Type}.
Variable clock : World → Z * World.
Variable scrape : string → World → ScrapeResult * World.
Variable self : ModAnalyzer.
Local Abbreviation Store := (@Store World).
Local Abbreviation M := (@M World).
Implicit Types (σ : Store).

Lemma triple_conj {A} (m : M A) (Q1 Q2 : A → Store → Prop) σ :
  wp self m Q1 σ → wlp m Q2 σ → wp self m (λ a σ', Q1 a σ' ∧ Q2 a σ') σ.
Proof. unfold wp, wlp, triple. by destruct (m σ). Qed.

Lemma length_scrape_dep_section rows :
  length (scrape_dep_section rows) = length rows.
Proof. unfold scrape_dep_section. by rewrite length_map. Qed.

(** What every call of [get_mod_data] guarantees: the call is recorded,
    and the store stays within a finite universe the catalog stays in. *)
Lemma triple_get_mod_data E F mod_id (Q : Entry → Store → Prop) σ :
  (page self = false → E ConnectionError) →
  (∀ entry σ',
      calls σ' = calls σ ++ [mod_id] →
      (∀ U B, catalog_within scrape U B → cache_within U B σ →
              cache_within U B σ' ∧ links_within U (requires_of entry)
              ∧ (length (requires_of entry) ≤ B)%nat) →
      Q entry σ') →
  triple E F (get_mod_data clock scrape self mod_id) Q σ.
Proof.
  intros HE HQ. unfold triple. rewrite get_mod_data_run. simpl.
  destruct (cached_valid clock self σ mod_id) as [[cached|] w] eqn:Hv.
  - apply HQ; [done|]. intros U B _ Hcache.
    apply cached_valid_Some in Hv as [Hin _].
    split; [|by apply (Hcache mod_id)].
    intros i e. apply (Hcache i e).
  - destruct (page self); [|by apply HE].
    destruct (scrape (mod_url self mod_id) w) as [[n c r rb|msg] w'] eqn:Hs.
    + apply HQ; [done|]. intros U B Hcat Hcache.
      destruct (Hcat _ _ _ _ _ _ _ Hs) as [Hl Hb].
      unfold requires_of at 1 2. simpl. rewrite length_scrape_dep_section.
      split; [|done]. intros i e. simpl.
      destruct (decide (mod_id = i)) as [->|Hne].
      * rewrite lookup_insert_eq. intros [= <-].
        unfold requires_of. simpl. by rewrite length_scrape_dep_section.
      * rewrite lookup_insert_ne by done. apply Hcache.
    + apply HQ; [done|]. intros U B _ Hcache.
      split; [done|]. split; [|simpl; lia].
      intros req req_id Hin. by apply elem_of_nil in Hin.
Qed.

Lemma in_tree_inv n t :
  in_tree n t → n = t ∨ ∃ c, c ∈ node_children t ∧ in_tree n c.
Proof. destruct 1; eauto. Qed.

Lemma in_tree_leaf n t : node_children t = [] → in_tree n t → n = t.
Proof.
  intros Hleaf [->|(c & Hc & _)]%in_tree_inv; [done|].
  rewrite Hleaf in Hc. by apply elem_of_nil in Hc.
Qed.

(** *** Ignored ids *)

Lemma ignored_are_leaves_with_notes notes t :
  ignored_are_leaves self t → ignored_are_leaves self (with_notes notes t).
Proof.
  intros Ht n [->|(c & Hc & Hn)]%in_tree_inv Hign.
  - apply (Ht t); [constructor | done].
  - apply Ht; [|done]. by apply in_tree_child with c.
Qed.

Lemma build_tree_ignored fuel mod_id visited_ids σ :
  visited_ids ## ignore_ids self →
  wlp (_build_dependency_tree clock scrape self fuel mod_id visited_ids)
      (λ tree _, ignored_are_leaves self tree) σ.
Proof.
  revert mod_id visited_ids σ.
  induction fuel as [|fuel IH]; intros mod_id visited σ Hdisj; [done|].
  unfold wlp. simpl. destruct (decide (mod_id ∈ visited)) as [Hin|Hnin].
  { apply triple_ret. intros n ->%in_tree_leaf; [|done]. simpl.
    intros Hign. set_solver. }
  apply triple_bind, triple_get_mod_data; [done|]. intros mod_data σ1 _ _.
  apply triple_bind.
  apply triple_mono with (Q := λ _ _, True).
  { destruct (decide (mod_id ≠ _get_effective_id self mod_id)); [|done].
    apply triple_bind, triple_get_mod_data; [done|]. done. }
  intros replacement_info σ2 _.
  destruct (decide (mod_id ∈ ignore_ids self)) as [Hign|Hnign].
  { apply triple_ret. by intros n ->%in_tree_leaf. }
  assert (Hleaf : ∀ status σ',
    triple (λ _, True) True
      (mret (mkNode mod_id (default ("ID: " +:+ mod_id) (e_name mod_data)) []
                    status replacement_info None) : M Node)
      (λ tree _, ignored_are_leaves self tree) σ').
  { intros status σ'. apply triple_ret. intros n ->%in_tree_leaf; [|done]. done. }
  assert (Hexpand : ∀ status σ',
    triple (λ _, True) True
      (children ←
         for_each (requires_of mod_data)
           (λ req children,
              match _extract_mod_id_from_url (req_url req) with
              | Some req_id =>
                  child_node ← _build_dependency_tree clock scrape self fuel req_id
                                 ({[mod_id]} ∪ visited);
                  mret (children
                          ++ [with_notes (default "" (req_notes req)) child_node])
              | None => mret children
              end) [];
       mret (mkNode mod_id (default ("ID: " +:+ mod_id) (e_name mod_data)) children
                    status replacement_info None))
      (λ tree _, ignored_are_leaves self tree) σ').
  { intros status σ'. apply triple_bind.
    eapply triple_mono.
    - apply triple_for_each
        with (I := λ _ children _, Forall (ignored_are_leaves self) children); [done|].
      intros req rest children σ3 Hall.
      destruct (_extract_mod_id_from_url (req_url req)) as [req_id|];
        [|by apply triple_ret].
      apply triple_bind. eapply triple_mono; [apply IH; set_solver|].
      intros child σ4 Hchild. apply triple_ret.
      apply Forall_app. split; [done|].
      apply Forall_singleton. by apply ignored_are_leaves_with_notes.
    - intros children σ3 Hall. apply triple_ret.
      intros n [->|(c & Hc & Hn)]%in_tree_inv Hign; [done|].
      simpl in Hc. rewrite Forall_forall in Hall. by apply (Hall c). }
  destruct (decide (_get_effective_id self mod_id ∈ installed_ids self));
    destruct (e_dependencies mod_data); auto.
Qed.

(** C8. In the tree built for any root (started, as the analyzer does,
    with an empty visited set), every node whose id is in the ignore set
    has status [ignored], whether or not its effective id is installed,
    and has no children, whatever its metadata lists. *)
Theorem ignored_nodes_are_leaves fuel root σ tree σ' :
  _build_dependency_tree clock scrape self fuel root ∅ σ = Ok tree σ' →
  ∀ n, in_tree n tree → node_id n ∈ ignore_ids self →
       node_status n = ignored ∧ node_children n = [].
Proof.
  intros Hrun.
  assert (Hdisj : (∅ : gset string) ## ignore_ids self) by set_solver.
  exact (triple_returned _ _ _ _ _ _ _
           (build_tree_ignored fuel root ∅ σ Hdisj) Hrun).
Qed.

End tree_facts.

Lemma ignored_nodes_are_leaves_witness :
  node_status node_base_ignored = ignored ∧ node_children node_base_ignored = [].
Proof.
  assert (Hrun : ∃ σ',
    _build_dependency_tree clock0 (catalog_scrape catalog_ignore) analyzer_ignore
      5 "2" ∅ store0 = Ok tree_addon σ').
  { eexists. vm_compute. reflexivity. }
  destruct Hrun as [σ' Hrun].
  apply (ignored_nodes_are_leaves _ _ _ _ _ _ _ _ Hrun node_base_ignored).
  - apply in_tree_child with node_base_ignored; [left | constructor].
  - apply elem_of_union_l, elem_of_singleton. reflexivity.
Defined.

Section tree_termination.
Context {World : Type}.
Variable clock : World → Z * World.
Variable scrape : string → World → ScrapeResult * World.
Variable self : ModAnalyzer.
Local Abbreviation Store := (@Store World).
Local Abbreviation M := (@M World).
Implicit Types (σ : Store) (U : gset string).

Lemma triple_remember {A} E F (m : M A) (Q : A → Store → Prop) σ :
  triple E F m (λ a σ', m σ = Ok a σ' → Q a σ') σ → triple E F m Q σ.
Proof. unfold triple. destruct (m σ); auto. Qed.

Lemma size_difference_visit U (visited : gset string) x :
  x ∈ U → x ∉ visited →
  (size (U ∖ ({[x]} ∪ visited)) < size (U ∖ visited))%nat.
Proof.
  intros HU Hv. apply subset_size. set_solver.
Qed.

Lemma links_within_mono U U' reqs :
  U ⊆ U' → links_within U reqs → links_within U' reqs.
Proof. intros Hsub H req req_id Hin Hex. apply Hsub. by apply (H req). Qed.

Lemma cache_within_mono U U' B σ :
  U ⊆ U' → cache_within U B σ → cache_within U' B σ.
Proof.
  intros Hsub H i e Hi. destruct (H i e Hi) as [Hl Hb].
  split; [by apply links_within_mono with U | done].
Qed.

Lemma catalog_within_mono U U' B :
  U ⊆ U' → catalog_within scrape U B → catalog_within scrape U' B.
Proof.
  intros Hsub H url w n c r rb w' Hs. destruct (H _ _ _ _ _ _ _ Hs) as [Hl Hb].
  split; [by apply links_within_mono with U | done].
Qed.

(** The recursion is as deep as the ids of the universe not yet on the
    branch, at most. *)
Lemma build_tree_terminates U B fuel mod_id visited_ids σ :
  catalog_within scrape U B → cache_within U B σ → mod_id ∈ U →
  (size (U ∖ visited_ids) < fuel)%nat →
  wp self (_build_dependency_tree clock scrape self fuel mod_id visited_ids)
     (λ _ σ', cache_within U B σ') σ.
Proof.
  intros Hcat. revert mod_id visited_ids σ.
  induction fuel as [|fuel IH]; intros mod_id visited σ Hcache HU Hfuel; [lia|].
  unfold wp. simpl. destruct (decide (mod_id ∈ visited)) as [Hin|Hnin].
  { by apply triple_ret. }
  apply triple_bind, triple_get_mod_data; [done|]. intros mod_data σ1 _ H1.
  destruct (H1 U B Hcat Hcache) as (Hcache1 & Hlinks & _). clear H1.
  apply triple_bind.
  apply triple_mono with (Q := λ _ σ', cache_within U B σ').
  { destruct (decide (mod_id ≠ _get_effective_id self mod_id)); [|done].
    apply triple_bind, triple_get_mod_data; [done|]. intros e σ2 _ H2.
    apply triple_ret. by apply (H2 U B). }
  intros replacement_info σ2 Hcache2.
  assert (Hexpand : ∀ status,
    triple (benign self) False
      (children ←
         for_each (requires_of mod_data)
           (λ req children,
              match _extract_mod_id_from_url (req_url req) with
              | Some req_id =>
                  child_node ← _build_dependency_tree clock scrape self fuel req_id
                                 ({[mod_id]} ∪ visited);
                  mret (children
                          ++ [with_notes (default "" (req_notes req)) child_node])
              | None => mret children
              end) [];
       mret (mkNode mod_id (default ("ID: " +:+ mod_id) (e_name mod_data)) children
                    status replacement_info None))
      (λ _ σ', cache_within U B σ') σ2).
  { intros status. apply triple_bind.
    eapply triple_mono.
    - apply triple_for_each
        with (I := λ rest _ σ', cache_within U B σ'
                                ∧ ∀ req, req ∈ rest → req ∈ requires_of mod_data).
      { done. }
      intros req rest children σ3 [Hcache3 Hrest].
      assert (Hrest' : ∀ r, r ∈ rest → r ∈ requires_of mod_data).
      { intros r Hr. apply Hrest. by right. }
      destruct (_extract_mod_id_from_url (req_url req)) as [req_id|] eqn:Hex;
        [|by apply triple_ret].
      apply triple_bind. eapply triple_mono.
      + apply IH; [done | | ].
        * apply (Hlinks req); [apply Hrest; left | done].
        * pose proof (size_difference_visit U visited mod_id HU Hnin). lia.
      + intros child σ4 Hcache4. by apply triple_ret.
    - intros children σ3 [Hcache3 _]. by apply triple_ret. }
  destruct (decide (mod_id ∈ ignore_ids self));
    [by apply triple_ret|].
  destruct (decide (_get_effective_id self mod_id ∈ installed_ids self));
    (destruct (e_dependencies mod_data); [apply Hexpand | by apply triple_ret]).
Qed.

(** A requirement of [A] on [A] itself, when [A] is expanded, becomes a
    child with status [cycle] and nothing below it. *)
Lemma build_tree_self_requirement fuel A σ :
  A ∉ ignore_ids self →
  wlp (_build_dependency_tree clock scrape self fuel A ∅)
    (λ tree _,
       node_id tree = A ∧
       ∀ mod_data σ1 req,
         get_mod_data clock scrape self A σ = Ok mod_data σ1 →
         req ∈ requires_of mod_data →
         _extract_mod_id_from_url (req_url req) = Some A →
         ∃ child, child ∈ node_children tree ∧ node_id child = A
                  ∧ node_status child = cycle ∧ node_children child = []) σ.
Proof.
  intros Hign. destruct fuel as [|fuel]; [done|].
  unfold wlp. simpl. rewrite decide_False by set_solver.
  apply triple_bind, triple_remember, triple_get_mod_data; [done|].
  intros mod_data σ1 _ _ Hget.
  apply triple_bind.
  apply triple_mono with (Q := λ _ _, True).
  { destruct (decide (A ≠ _get_effective_id self A)); [|done].
    apply triple_bind, triple_get_mod_data; [done|]. done. }
  intros replacement_info σ2 _.
  rewrite decide_False by done.
  set (P := λ (children : list Node) (mod_data0 : Entry) (req : Requirement),
         req ∈ requires_of mod_data0 →
         _extract_mod_id_from_url (req_url req) = Some A →
         ∃ child, child ∈ children ∧ node_id child = A
                  ∧ node_status child = cycle ∧ node_children child = []).
  assert (Hleaf : ∀ status,
    e_dependencies mod_data = None →
    triple (λ _, True) True
      (mret (mkNode A (default ("ID: " +:+ A) (e_name mod_data)) []
                    status replacement_info None) : M Node)
      (λ tree _, node_id tree = A ∧ ∀ mod_data0 σ0 req,
           get_mod_data clock scrape self A σ = Ok mod_data0 σ0 → P (node_children tree) mod_data0 req) σ2).
  { intros status Hnone. apply triple_ret. split; [done|].
    intros ? ? req Hget'. rewrite Hget in Hget'. injection Hget' as <- <-. intros Hin. unfold requires_of in Hin.
    rewrite Hnone in Hin. by apply elem_of_nil in Hin. }
  assert (Hexpand : ∀ status,
    triple (λ _, True) True
      (children ←
         for_each (requires_of mod_data)
           (λ req children,
              match _extract_mod_id_from_url (req_url req) with
              | Some req_id =>
                  child_node ← _build_dependency_tree clock scrape self fuel req_id
                                 ({[A]} ∪ ∅);
                  mret (children
                          ++ [with_notes (default "" (req_notes req)) child_node])
              | None => mret children
              end) [];
       mret (mkNode A (default ("ID: " +:+ A) (e_name mod_data)) children
                    status replacement_info None))
      (λ tree _, node_id tree = A ∧ ∀ mod_data0 σ0 req,
           get_mod_data clock scrape self A σ = Ok mod_data0 σ0 → P (node_children tree) mod_data0 req) σ2).
  { intros status. apply triple_bind.
    eapply triple_mono.
    - apply triple_for_each
        with (I := λ rest children _,
                ∀ req, req ∈ requires_of mod_data →
                       _extract_mod_id_from_url (req_url req) = Some A →
                       req ∈ rest ∨
                       ∃ child, child ∈ children ∧ node_id child = A
                                ∧ node_status child = cycle
                                ∧ node_children child = []).
      { intros req Hin _. by left. }
      intros x rest children σ3 Hinv.
      destruct (_extract_mod_id_from_url (req_url x)) as [req_id|] eqn:Hex.
      + apply triple_bind.
        apply triple_mono with
          (Q := λ child _, req_id = A → node_id child = A ∧ node_status child = cycle
                                        ∧ node_children child = []).
        { destruct fuel as [|fuel]; [done|]. simpl.
          destruct (decide (req_id ∈ {[A]} ∪ (∅ : gset string))) as [Hin|Hnin].
          - by apply triple_ret.
          - unfold triple.
            destruct (_ ≫= _) as [child σ'| |]; [|done|done].
            intros ->. set_solver. }
        intros child σ4 Hchild. apply triple_ret.
        intros req Hin Hreq.
        destruct (Hinv req Hin Hreq) as [[->|Hrest]%elem_of_cons|(c & Hc & ?)].
        * right. exists (with_notes (default "" (req_notes x)) child).
          split; [apply elem_of_app; right; by left|].
          rewrite Hex in Hreq. injection Hreq as ->. by apply Hchild.
        * by left.
        * right. exists c. split; [apply elem_of_app; by left | done].
      + apply triple_ret. intros req Hin Hreq.
        destruct (Hinv req Hin Hreq) as [[->|Hrest]%elem_of_cons|?];
          [congruence | by left | by right].
    - intros children σ3 Hinv. apply triple_ret. split; [done|].
      intros ? ? req Hget'. rewrite Hget in Hget'. injection Hget' as <- <-.
      intros Hin Hreq. simpl.
      destruct (Hinv req Hin Hreq) as [Hnil|?]; [|done].
      by apply elem_of_nil in Hnil. }
  destruct (decide (_get_effective_id self A ∈ installed_ids self));
    (destruct (e_dependencies mod_data) eqn:Hdeps; [apply Hexpand | by apply Hleaf]).
Qed.

(** C5 (amended). Over a finite metadata universe the tree builder
    terminates: with fuel for the ids of the universe it returns a tree
    (or passes on the [ConnectionError] of a missing browser page).  When
    the root [A] is not in the ignore set and its requirements include [A]
    itself, the tree for [A] has a child node for [A] with status [cycle]
    and no children. *)
Theorem build_tree_terminates_with_cycle U B fuel A σ :
  catalog_within scrape U B → cache_within U B σ →
  (size U + 2 ≤ fuel)%nat →
  wp self (_build_dependency_tree clock scrape self fuel A ∅)
    (λ tree _,
       node_id tree = A ∧
       (A ∉ ignore_ids self →
        ∀ mod_data σ1 req,
          get_mod_data clock scrape self A σ = Ok mod_data σ1 →
          req ∈ requires_of mod_data →
          _extract_mod_id_from_url (req_url req) = Some A →
          ∃ child, child ∈ node_children tree ∧ node_id child = A
                   ∧ node_status child = cycle ∧ node_children child = [])) σ.
Proof.
  intros Hcat Hcache Hfuel.
  assert (Hterm : wp self (_build_dependency_tree clock scrape self fuel A ∅)
                     (λ _ _, True) σ).
  { eapply triple_mono.
    - apply (build_tree_terminates ({[A]} ∪ U) B).
      + eapply catalog_within_mono; [|done]. set_solver.
      + eapply cache_within_mono; [|done]. set_solver.
      + set_solver.
      + rewrite difference_empty_L.
        pose proof (size_union_alt ({[A]} : gset string) U) as Hs.
        rewrite size_singleton in Hs.
        pose proof (subseteq_size (U ∖ {[A]}) U). 
        assert (size (U ∖ {[A]}) ≤ size U)%nat by (apply subseteq_size; set_solver).
        lia.
    - done. }
  destruct (decide (A ∈ ignore_ids self)) as [Hign|Hnign].
  - eapply triple_mono; [apply triple_conj; [exact Hterm|]|].
    + instantiate (1 := λ tree _, node_id tree = A).
      destruct fuel as [|fuel]; [done|]. unfold wlp. simpl.
      rewrite decide_False by set_solver.
      apply triple_bind, triple_get_mod_data; [done|]. intros mod_data σ1 _ _.
      apply triple_bind.
      apply triple_mono with (Q := λ _ _, True).
      { destruct (decide (A ≠ _get_effective_id self A)); [|done].
        apply triple_bind, triple_get_mod_data; [done|]. done. }
      intros replacement_info σ2 _. rewrite decide_True by done. by apply triple_ret.
    + intros tree σ' [_ Hid]. split; [done|]. done.
  - eapply triple_mono; [apply triple_conj; [exact Hterm|]|].
    + by apply build_tree_self_requirement.
    + intros tree σ' [_ [Hid Hchild]]. split; [done|]. intros _. apply Hchild.
Qed.

End tree_termination.

(** The catalog of the examples stays within the ids 1, 3 and 7, one
    requirement per page. *)
Lemma catalog_ignore_within :
  catalog_within (catalog_scrape catalog_ignore) {[ "1"; "3"; "7" ]} 1.
Proof.
  intros url w n c r rb w'. unfold catalog_scrape.
  destruct (_extract_mod_id_from_url url) as [mod_id|]; [|done].
  unfold catalog_ignore. simpl.
  repeat (case_decide; subst; simpl); intros [= <- <- <- <- <-];
    (split; [|simpl; lia]);
    intros req req_id [->|Hnil%elem_of_nil]%elem_of_cons; try done;
    vm_compute; intros [= <-]; set_solver.
Qed.

Lemma build_tree_terminates_with_cycle_witness :
  wp analyzer_plain
    (_build_dependency_tree clock0 (catalog_scrape catalog_ignore) analyzer_plain
       5 "7" ∅)
    (λ tree _,
       node_id tree = "7" ∧
       ("7" ∉ ignore_ids analyzer_plain →
        ∀ mod_data σ1 req,
          get_mod_data clock0 (catalog_scrape catalog_ignore) analyzer_plain "7" store0
            = Ok mod_data σ1 →
          req ∈ requires_of mod_data →
          _extract_mod_id_from_url (req_url req) = Some "7" →
          ∃ child, child ∈ node_children tree ∧ node_id child = "7"
                   ∧ node_status child = cycle ∧ node_children child = []))
    store0.
Proof.
  apply (build_tree_terminates_with_cycle clock0 (catalog_scrape catalog_ignore)
           analyzer_plain {[ "1"; "3"; "7" ]} 1 5 "7" store0).
  - exact catalog_ignore_within.
  - intros mod_id entry H. vm_compute in H. discriminate H.
  - vm_compute. lia.
Defined.

(** C5, as stated, fails for an ignored mod: mod 7 requires itself, yet
    the tree built for it is a leaf, without a [cycle] child. *)
Lemma ignored_self_requirement_no_cycle_child :
  ∃ mod_data σ1 req tree σ',
    get_mod_data clock0 (catalog_scrape catalog_ignore) analyzer_ignore "7" store0
      = Ok mod_data σ1
    ∧ req ∈ requires_of mod_data
    ∧ _extract_mod_id_from_url (req_url req) = Some "7"
    ∧ _build_dependency_tree clock0 (catalog_scrape catalog_ignore) analyzer_ignore
        5 "7" ∅ store0 = Ok tree σ'
    ∧ node_status tree = ignored
    ∧ node_children tree = [].
Proof.
  eexists _, _, _, _, _.
  split; [vm_compute; reflexivity|].
  split; [left|].
  split; [vm_compute; reflexivity|].
  split; [vm_compute; reflexivity|].
  split; reflexivity.
Qed.

(** ** The network builder *)

Section network_facts.
Context {World : Type}.
Variable clock : World → Z * World.
Variable scrape : string → World → ScrapeResult * World.
Variable set_iter : gset string → list string.
Variable self : ModAnalyzer.
Local Abbreviation Store := (@Store World).
Local Abbreviation M := (@M World).
Implicit Types (σ : Store) (U P : gset string) (q : list string).

Lemma dom_dd_append {V} k (x : V) (d : gmap string (list V)) :
  dom (dd_append k x d) = {[k]} ∪ dom d.
Proof. unfold dd_append. by rewrite dom_insert_L. Qed.

(** The loop over the requirements of the id being expanded keeps the
    invariant and appends to the queue ids the requirements link to, one
    per requirement at most. *)
Lemma add_requirements_spec E F calls0 current_id P reqs g r q σ :
  current_id ∈ P →
  network_inv self calls0 (g, r, q) P σ →
  triple E F (for_each reqs (add_requirement current_id P) (g, r, q))
    (λ st σ', σ' = σ ∧ network_inv self calls0 st P σ
              ∧ (length st.2 ≤ length q + length reqs)%nat
              ∧ ∀ x, x ∈ st.2 →
                     x ∈ q ∨ ∃ req, req ∈ reqs
                                    ∧ _extract_mod_id_from_url (req_url req) = Some x) σ.
Proof.
  intros Hcur Hinv.
  eapply triple_mono.
  - apply triple_for_each with
      (I := λ rest st σ',
         σ' = σ ∧ network_inv self calls0 st P σ
         ∧ (length st.2 + length rest ≤ length q + length reqs)%nat
         ∧ (∀ x, x ∈ st.2 →
                 x ∈ q ∨ ∃ req, req ∈ reqs
                                ∧ _extract_mod_id_from_url (req_url req) = Some x)
         ∧ ∀ req, req ∈ rest → req ∈ reqs).
    { simpl. split; [done|]. split; [done|]. split; [done|]. split; [|done].
      intros x Hx. by left. }
    intros req rest [[g1 r1] q1] σ' (-> & Hinv1 & Hlen & Hfrom & Hrest).
    assert (Hrest' : ∀ req', req' ∈ rest → req' ∈ reqs).
    { intros req' Hin. apply Hrest. by right. }
    unfold add_requirement.
    destruct (_extract_mod_id_from_url (req_url req)) as [req_id|] eqn:Hex.
    + apply triple_ret. split; [done|].
      destruct Hinv1 as (H1 & H2 & H3 & H4 & H5 & H6).
      simpl in *. split; [|split; [|split; [|done]]].
      * unfold network_inv. rewrite !dom_dd_append.
        split; [set_solver|]. split.
        { case_decide; [rewrite list_to_set_app_L; simpl|]; set_solver. }
        split.
        { case_decide; [rewrite list_to_set_app_L; simpl|]; set_solver. }
        split; [set_solver|]. split; [|done].
        case_decide; [rewrite list_to_set_app_L; simpl|]; set_solver.
      * case_decide; [rewrite length_app|]; simpl; clear -Hlen; lia.
      * intros x. case_decide; [|by apply Hfrom].
        intros [?|Hx%list_elem_of_singleton]%elem_of_app; [by apply Hfrom|].
        subst x. right. exists req. split; [apply Hrest; left | done].
    + apply triple_ret. simpl in *.
      split; [done|]. split; [done|]. split; [clear -Hlen; lia|]. done.
  - intros [[g1 r1] q1] σ' (-> & Hinv1 & Hlen & Hfrom & _).
    simpl in *. split; [done|]. split; [done|]. split; [clear -Hlen; lia | done].
Qed.

(** The traversal keeps its invariant until the queue is empty.  It runs
    out of fuel ([F]) only outside a finite universe, or when given less
    fuel than the ids still to expand and to skip. *)
Lemma network_loop_spec (F : Prop) U B calls0 fuel g r q P σ :
  network_inv self calls0 (g, r, q) P σ →
  (¬ (catalog_within scrape U B ∧ cache_within U B σ
      ∧ (∀ x, x ∈ q → x ∈ U)
      ∧ ((B + 1) * size (U ∖ P) + length q < fuel)%nat) → F) →
  triple (benign self) F (network_loop clock scrape self fuel (g, r, q) P)
     (network_post self calls0) σ.
Proof.
  revert g r q P σ.
  induction fuel as [|fuel IH]; intros g r q P σ Hinv HF.
  { apply HF. intros (_ & _ & _ & ?). lia. }
  simpl. destruct q as [|current_id q].
  { apply triple_ret. destruct Hinv as (H1 & H2 & H3 & H4 & H5 & H6).
    simpl in *. split; [set_solver | done]. }
  destruct (decide (current_id ∈ P)) as [Hin|Hnin].
  { apply IH.
    - destruct Hinv as (H1 & H2 & H3 & H4 & H5 & H6).
      repeat split; [done | set_solver | set_solver | done | set_solver | done].
    - intros Hn. apply HF. intros (Hcat & Hcache & HqU & Hfuel). apply Hn.
      split; [done|]. split; [done|]. split.
      + intros x Hx. apply HqU. by right.
      + simpl in Hfuel. lia. }
  apply triple_bind, triple_get_mod_data; [done|]. intros mod_data σ1 Hcalls H1.
  assert (Hinv1 : network_inv self calls0 (g, r, q) ({[current_id]} ∪ P) σ1).
  { destruct Hinv as (H1' & H2 & H3 & H4 & H5 & t & Ht & Hnd & Hset).
    repeat split; [set_solver | set_solver | set_solver | set_solver | set_solver |].
    exists (t ++ [current_id]). split; [by rewrite Hcalls, Ht, app_assoc|].
    split.
    - apply NoDup_app. split; [done|]. split; [|apply NoDup_singleton].
      intros x Hx Hx'%list_elem_of_singleton. subst x. apply Hnin. rewrite <- Hset.
      by apply elem_of_list_to_set.
    - rewrite list_to_set_app_L. simpl. set_solver. }
  apply triple_bind.
  apply triple_mono with
    (Q := λ st σ',
       σ' = σ1 ∧ network_inv self calls0 st ({[current_id]} ∪ P) σ1
       ∧ (length st.2 ≤ length q + length (requires_of mod_data))%nat
       ∧ ∀ x, x ∈ st.2 →
              x ∈ q ∨ ∃ req, req ∈ requires_of mod_data
                             ∧ _extract_mod_id_from_url (req_url req) = Some x).
  { destruct (e_dependencies mod_data).
    - apply add_requirements_spec; [set_solver | done].
    - apply triple_ret. simpl. split; [done|]. split; [done|].
      split; [lia|]. intros x Hx. by left. }
  intros [[g' r'] q'] σ2 (-> & Hinv2 & Hlen2 & Hfrom). simpl in *.
  apply IH; [done|].
  intros Hn. apply HF. intros (Hcat & Hcache & HqU & Hfuel). apply Hn.
  destruct (H1 U B Hcat Hcache) as (Hcache1 & Hlinks & Hlen).
  split; [done|]. split; [done|]. split.
  - intros x [Hx|(req & Hreq & Hex)]%Hfrom.
    + apply HqU. by right.
    + by apply (Hlinks req).
  - assert (size (U ∖ ({[current_id]} ∪ P)) < size (U ∖ P))%nat.
    { apply subset_size. assert (current_id ∈ U) by (apply HqU; left). set_solver. }
    simpl in Hfuel. nia.
Qed.

(** C7. Whenever the network builder returns, the visited set it returns
    is the union of the keys of the forward map, the keys of the reverse
    map and the installed ids, and the ids it expanded (fetched the
    metadata of) during the traversal are the visited ids, each expanded
    once, however many requirement edges point to it.  Over a finite
    metadata universe it does return, given fuel for its iterations (or
    passes on the [ConnectionError] of a missing browser page). *)
Theorem network_visited_set fuel σ :
  set_iter (installed_ids self) ≡ₚ elements (installed_ids self) →
  wlp (_build_full_dependency_network clock scrape set_iter self fuel)
      (λ result σ',
         let '(graph, reverse_graph, visited) := result in
         visited = dom graph ∪ dom reverse_graph ∪ installed_ids self
         ∧ ∃ expanded,
             calls σ' = calls σ ++ expanded ∧ NoDup expanded
             ∧ list_to_set expanded = visited) σ
  ∧ ∀ U B,
      catalog_within scrape U B → cache_within U B σ →
      installed_ids self ⊆ U →
      ((B + 1) * size U + size (installed_ids self) < fuel)%nat →
      wp self (_build_full_dependency_network clock scrape set_iter self fuel)
         (λ result σ',
            let '(graph, reverse_graph, visited) := result in
            visited = dom graph ∪ dom reverse_graph ∪ installed_ids self
            ∧ ∃ expanded,
                calls σ' = calls σ ++ expanded ∧ NoDup expanded
                ∧ list_to_set expanded = visited) σ.
Proof.
  intros Hiter. unfold _build_full_dependency_network.
  assert (Hset : list_to_set (set_iter (installed_ids self)) = installed_ids self).
  { apply set_eq. intros x.
    by rewrite elem_of_list_to_set, Hiter, elem_of_elements. }
  assert (Hinv : network_inv self (calls σ)
                   (∅, ∅, set_iter (installed_ids self)) ∅ σ).
  { unfold network_inv. rewrite Hset, dom_empty_L.
    repeat split; try set_solver.
    exists []. rewrite app_nil_r. split; [done|]. split; [constructor | done]. }
  assert (Hpost : ∀ result σ',
    network_post self (calls σ) result σ' →
    let '(graph, reverse_graph, visited) := result in
    visited = dom graph ∪ dom reverse_graph ∪ installed_ids self
    ∧ ∃ expanded,
        calls σ' = calls σ ++ expanded ∧ NoDup expanded
        ∧ list_to_set expanded = visited).
  { by intros [[g r] V] σ'. }
  split.
  - eapply triple_mono; [|exact Hpost].
    unfold wlp.
    assert (Hweaken : ∀ m : M (gmap string (list Edge) * gmap string (list Edge)
                                * gset string),
      triple (benign self) True m (network_post self (calls σ)) σ →
      triple (λ _, True) True m (network_post self (calls σ)) σ).
    { intros m. unfold triple. by destruct (m σ). }
    apply Hweaken. by apply (network_loop_spec True ∅ 0%nat).
  - intros U B Hcat Hcache HU Hfuel.
    eapply triple_mono; [|exact Hpost].
    apply (network_loop_spec False U B); [done|].
    intros Hn. apply Hn. split; [done|]. split; [done|]. split.
    + intros x Hx. apply HU. rewrite <- Hset. by apply elem_of_list_to_set.
    + rewrite difference_empty_L, Hiter.
      change (length (elements (installed_ids self)))
        with (size (installed_ids self)).
      clear -Hfuel. lia.
Qed.

End network_facts.

Lemma catalog_xyz_within :
  catalog_within (catalog_scrape catalog_xyz) {[ "1"; "2"; "3" ]} 1.
Proof.
  intros url w n c r rb w'. unfold catalog_scrape.
  destruct (_extract_mod_id_from_url url) as [mod_id|]; [|done].
  unfold catalog_xyz. simpl.
  repeat (case_decide; subst; simpl); intros [= <- <- <- <- <-];
    (split; [|simpl; lia]);
    intros req req_id Hin; try (by apply elem_of_nil in Hin);
    apply elem_of_cons in Hin as [->|Hnil%elem_of_nil]; try done;
    vm_compute; intros [= <-]; set_solver.
Qed.

Lemma network_visited_set_witness :
  wp analyzer_xyz
    (_build_full_dependency_network clock0 (catalog_scrape catalog_xyz) elements
       analyzer_xyz 20)
    (λ result σ',
       let '(graph, reverse_graph, visited) := result in
       visited = dom graph ∪ dom reverse_graph ∪ installed_ids analyzer_xyz
       ∧ ∃ expanded,
           calls σ' = calls store0 ++ expanded ∧ NoDup expanded
           ∧ list_to_set expanded = visited)
    store0.
Proof.
  refine (proj2 (network_visited_set clock0 (catalog_scrape catalog_xyz) elements
                   analyzer_xyz 20 store0 _) {[ "1"; "2"; "3" ]} 1%nat _ _ _ _).
  - reflexivity.
  - exact catalog_xyz_within.
  - intros mod_id entry H. vm_compute in H. discriminate H.
  - reflexivity.
  - vm_compute. lia.
Defined.

(** ** Sorting *)

Lemma insert_sorted_perm {A} (le : A → A → bool) x l :
  insert_sorted le x l ≡ₚ x :: l.
Proof.
  induction l as [|y l IH]; simpl; [done|].
  destruct (le x y); [done|]. rewrite IH. apply Permutation_swap.
Qed.

Lemma sorted_perm {A} (le : A → A → bool) l : sorted le l ≡ₚ l.
Proof.
  induction l as [|x l IH]; simpl; [done|].
  by rewrite insert_sorted_perm, IH.
Qed.

(** ** The missing-dependency analyzer *)

Section missing_facts.
Context {World : Type}.
Variable clock : World → Z * World.
Variable scrape : string → World → ScrapeResult * World.
Variable self : ModAnalyzer.
Local Abbreviation Store := (@Store World).
Local Abbreviation M := (@M World).
Implicit Types (σ : Store).

Lemma elem_of_unmet all_nodes mod_id :
  mod_id ∈ unmet self all_nodes ↔
  mod_id ∈ all_nodes ∧ (_get_effective_id self mod_id ∉ installed_ids self)
  ∧ mod_id ∉ ignore_ids self.
Proof.
  unfold unmet, _is_dependency_satisfied.
  rewrite elem_of_filter, bool_decide_eq_false. tauto.
Qed.

Lemma add_requirer_returns unmet_dependencies req_info st σ :
  wp self (add_requirer clock scrape self unmet_dependencies req_info st)
     (λ _ _, True) σ.
Proof.
  unfold add_requirer. destruct st as [req_by_installed req_by_missing].
  destruct (decide (edge_id req_info ∈ installed_ids self)); [done|].
  destruct (decide (_ ∈ unmet_dependencies)); [|done].
  apply triple_bind, triple_get_mod_data; [done|]. done.
Qed.

(** One round of the report loop adds the entry of [unmet_id] and nothing
    else. *)
Lemma report_unmet_keys unmet_dependencies reverse_graph unmet_id missing_report σ :
  wp self (report_unmet clock scrape self unmet_dependencies reverse_graph
             unmet_id missing_report)
     (λ report _, ∃ entry, report = OrderedDict.set unmet_id entry missing_report) σ.
Proof.
  unfold report_unmet. apply triple_bind.
  eapply triple_mono.
  { apply triple_for_each with (I := λ _ _ _, True); [done|].
    intros req_info rest st σ' _. apply add_requirer_returns. }
  intros [req_by_installed req_by_missing] σ1 _.
  apply triple_bind, triple_get_mod_data; [done|]. intros unmet_data σ2 _ _.
  apply triple_bind.
  apply triple_mono with (Q := λ _ _, True).
  { destruct (decide (unmet_id ≠ _get_effective_id self unmet_id)); [|done].
    apply triple_bind, triple_get_mod_data; [done|]. done. }
  intros effective_name σ3 _. apply triple_ret. eauto.
Qed.

(** C3 (amended). The missing analyzer returns (or passes on the
    [ConnectionError] of a missing browser page), and the keys of its
    report are the unmet ids in ascending order: an id is a key exactly
    when it was visited, its effective id is not installed and it is not
    ignored.  So no id whose effective id is installed is ever a key, and
    in particular no installed id without a replace entry. *)
Theorem missing_report_keys all_nodes reverse_graph σ :
  wp self (_identify_missing_dependencies clock scrape self all_nodes reverse_graph)
     (λ report _,
        OrderedDict.keys report = sorted String.leb (elements (unmet self all_nodes))
        ∧ (∀ mod_id,
             mod_id ∈ OrderedDict.keys report ↔
             mod_id ∈ all_nodes
             ∧ (_get_effective_id self mod_id ∉ installed_ids self)
             ∧ mod_id ∉ ignore_ids self)
        ∧ (∀ mod_id,
             mod_id ∈ installed_ids self →
             replacement_map self !! mod_id = None →
             mod_id ∉ OrderedDict.keys report)) σ.
Proof.
  assert (Hkeys : ∀ report : odict ReportEntry,
    OrderedDict.keys report = sorted String.leb (elements (unmet self all_nodes)) →
    (∀ mod_id,
       mod_id ∈ OrderedDict.keys report ↔
       mod_id ∈ all_nodes
       ∧ (_get_effective_id self mod_id ∉ installed_ids self)
       ∧ mod_id ∉ ignore_ids self)
    ∧ (∀ mod_id,
         mod_id ∈ installed_ids self →
         replacement_map self !! mod_id = None →
         mod_id ∉ OrderedDict.keys report)).
  { intros report Hk.
    assert (Hiff : ∀ mod_id,
      mod_id ∈ OrderedDict.keys report ↔
      mod_id ∈ all_nodes
      ∧ (_get_effective_id self mod_id ∉ installed_ids self)
      ∧ mod_id ∉ ignore_ids self).
    { intros mod_id.
      by rewrite Hk, sorted_perm, elem_of_elements, elem_of_unmet. }
    split; [done|]. intros mod_id Hinst Hnone [_ [Hne _]]%Hiff.
    apply Hne. unfold _get_effective_id. by rewrite Hnone. }
  unfold _identify_missing_dependencies.
  destruct (decide (unmet self all_nodes = ∅)) as [Hempty|Hne].
  { apply triple_ret. split; [|apply Hkeys]; by rewrite Hempty, elements_empty. }
  set (L := sorted String.leb (elements (unmet self all_nodes))).
  assert (HL : NoDup L).
  { unfold L. rewrite sorted_perm. apply NoDup_elements. }
  eapply triple_mono.
  - apply triple_for_each with
      (I := λ rest (report : odict ReportEntry) _,
              OrderedDict.keys report ++ rest = L); [done|].
    intros unmet_id rest report σ' Hinv.
    eapply triple_mono; [apply report_unmet_keys|].
    intros report' σ'' [entry Heq]. subst report'. simpl in *.
    rewrite od_keys_set_absent, <- app_assoc; [done|].
    rewrite <- Hinv in HL. apply NoDup_app in HL as (_ & Hdisj & _).
    intros Hin. apply (Hdisj _ Hin). left.
  - intros report σ' Hinv. simpl in Hinv. rewrite app_nil_r in Hinv.
    split; [done | by apply Hkeys].
Qed.

End missing_facts.

(** C3, as stated, fails: mod 44444 is installed, but its replacement
    55555 is not, so 44444 is reported as missing. *)
Lemma installed_id_reported_missing :
  ∃ report σ',
    _identify_missing_dependencies clock0 (catalog_scrape []) analyzer_replace
      {[ "44444" ]} ∅ store0 = Ok report σ'
    ∧ "44444" ∈ installed_ids analyzer_replace
    ∧ "44444" ∈ OrderedDict.keys report.
Proof.
  eexists _, _. split; [vm_compute; reflexivity|].
  split; [vm_compute; reflexivity | left].
Qed.

(** ** The topological sorter: building the induced graph *)

Lemma sum_list_map_update {A} (f f' : A → nat) (p : A) (c : nat) (L : list A) :
  NoDup L → p ∈ L →
  (∀ u, u ≠ p → f' u = f u) → f' p = (f p + c)%nat →
  sum_list (map f' L) = (sum_list (map f L) + c)%nat.
Proof.
  intros Hnd Hin Hother Hp. induction L as [|x L IH]; [by apply elem_of_nil in Hin|].
  apply NoDup_cons in Hnd as [Hx Hnd]. simpl.
  apply elem_of_cons in Hin as [->|Hin].
  - rewrite Hp.
    assert (map f' L = map f L) as ->; [|lia].
    apply map_ext_in. intros u Hu%list_elem_of_In. apply Hother. by intros ->.
  - rewrite (IH Hnd Hin), Hother; [lia|]. by intros ->.
Qed.


Lemma sum_list_map_zero {A} (f : A → nat) (L : list A) :
  sum_list (map f L) = 0%nat ↔ ∀ u, u ∈ L → f u = 0%nat.
Proof.
  induction L as [|x L IH]; simpl.
  - split; [intros _ u Hu; by apply elem_of_nil in Hu | done].
  - split.
    + intros Hsum u [->|Hu]%elem_of_cons; [lia|]. apply IH; [lia | done].
    + intros Hall. rewrite (Hall x) by left.
      apply IH. intros u Hu. apply Hall. by right.
Qed.

Lemma occurrences_cons v x l :
  occurrences v (x :: l)
  = ((if decide (x = v) then 1 else 0) + occurrences v l)%nat.
Proof.
  unfold occurrences. rewrite filter_cons. by destruct (decide (x = v)).
Qed.

Lemma occurrences_cons_eq v l : occurrences v (v :: l) = S (occurrences v l).
Proof. rewrite occurrences_cons. by rewrite decide_True. Qed.

Lemma occurrences_cons_ne v x l : x ≠ v → occurrences v (x :: l) = occurrences v l.
Proof. intros Hne. rewrite occurrences_cons. by rewrite decide_False. Qed.

Lemma occurrences_snoc v l x :
  occurrences v (l ++ [x])
  = (occurrences v l + (if decide (x = v) then 1 else 0))%nat.
Proof.
  unfold occurrences. rewrite filter_app, length_app, filter_cons, filter_nil.
  by destruct (decide (x = v)).
Qed.

Lemma occurrences_pos v l : occurrences v l ≠ 0%nat ↔ v ∈ l.
Proof.
  induction l as [|x l IH]; [split; [done | by intros ?%elem_of_nil]|].
  rewrite occurrences_cons, elem_of_cons.
  destruct (decide (x = v)) as [->|Hne]; simpl.
  - split; [by left | lia].
  - rewrite IH. split; [by right | by intros [->|?]].
Qed.

Lemma get_list_dd_append {V} (u p : string) (x : V) (d : gmap string (list V)) :
  get_list u (dd_append p x d)
  = if decide (u = p) then get_list p d ++ [x] else get_list u d.
Proof.
  unfold get_list, dd_append. destruct (decide (u = p)) as [->|Hne].
  - by rewrite lookup_insert_eq.
  - by rewrite lookup_insert_ne.
Qed.

Lemma od_get_map_const {V} (K : list string) (v : string) (c : V) :
  v ∈ K → OrderedDict.get v (map (λ f, (f, c)) K) = Some c.
Proof.
  induction K as [|k K IH]; intros Hv; [by apply elem_of_nil in Hv|].
  simpl. destruct (decide (v = k)) as [|Hne]; [done|].
  apply IH. apply elem_of_cons in Hv as [Hv|Hv]; [done | done].
Qed.

Section precedence_facts.
Variable self : ModAnalyzer.
Hypothesis folder_to_id_dict : NoDup (local_names self).

Lemma pending_dd_append p d graph emitted v :
  p ∈ local_names self →
  pending self (dd_append p d graph) emitted v
  = (pending self graph emitted v
     + (if decide (p ∈ emitted) then 0 else if decide (d = v) then 1 else 0))%nat.
Proof.
  intros Hp. unfold pending. apply (sum_list_map_update _ _ p); [assumption | assumption | idtac | idtac].
  - intros u Hu. rewrite get_list_dd_append.
    by rewrite (decide_False (P := u = p)).
  - rewrite get_list_dd_append, (decide_True (P := p = p)) by done.
    destruct (decide (p ∈ emitted)); [done|]. apply occurrences_snoc.
Qed.

(** Emitting [u] takes its edges out of the pending counts. *)
Lemma pending_emit graph emitted u v :
  u ∈ local_names self → u ∉ emitted →
  pending self graph emitted v
  = (pending self graph (emitted ++ [u]) v + occurrences v (get_list u graph))%nat.
Proof.
  intros Hu Hnot. unfold pending.
  apply (sum_list_map_update _ _ u); [assumption | assumption | idtac | idtac].
  - intros x Hx. destruct (decide (x ∈ emitted)) as [Hin|Hnin].
    + rewrite decide_True; [done|]. apply elem_of_app. by left.
    + rewrite decide_False; [done|].
      intros [?|?%list_elem_of_singleton]%elem_of_app; done.
  - rewrite (decide_False (P := u ∈ emitted)) by done.
    rewrite decide_True; [done|]. apply elem_of_app. right. left.
Qed.


Lemma pending_zero graph emitted v u :
  pending self graph emitted v = 0%nat →
  u ∈ local_names self → precedence graph u v → u ∈ emitted.
Proof.
  intros Hz Hu Huv. destruct (decide (u ∈ emitted)) as [|Hnot]; [done|].
  exfalso. pose proof (proj1 (sum_list_map_zero _ _) Hz u Hu) as Hocc.
  simpl in Hocc. rewrite decide_False in Hocc by done.
  by apply occurrences_pos in Huv.
Qed.

Lemma foldl_set_zero (acc : odict Z) (l : list string) :
  NoDup (OrderedDict.keys acc ++ l) →
  foldl (λ d f, OrderedDict.set f 0 d) acc l = acc ++ map (λ f, (f, 0)) l.
Proof.
  revert acc. induction l as [|f l IH]; intros acc Hnd; simpl.
  - by rewrite app_nil_r.
  - assert (Hf : f ∉ OrderedDict.keys acc).
    { apply NoDup_app in Hnd as (_ & Hdisj & _). intros Hin.
      apply (Hdisj _ Hin). left. }
    rewrite IH.
    + assert (Hset : ∀ d : odict Z, f ∉ OrderedDict.keys d →
                OrderedDict.set f 0 d = d ++ [(f, 0)]).
      { clear. induction d as [|[k v] d IHd]; simpl; [done|].
        intros [Hne Hd]%not_elem_of_cons. rewrite decide_False by done.
        by rewrite IHd. }
      rewrite Hset by done. by rewrite <- app_assoc.
    + rewrite od_keys_set_absent by done. by rewrite <- app_assoc.
Qed.

Lemma initial_in_degree_eq :
  initial_in_degree self = map (λ f, (f, 0)) (local_names self).
Proof. unfold initial_in_degree. by rewrite foldl_set_zero. Qed.

Lemma initial_in_degree_keys :
  OrderedDict.keys (initial_in_degree self) = local_names self.
Proof.
  rewrite initial_in_degree_eq. unfold OrderedDict.keys.
  rewrite <- list_fmap_compose. apply list_fmap_id.
Qed.

Lemma initial_in_degree_get v :
  v ∈ local_names self → OrderedDict.get v (initial_in_degree self) = Some 0.
Proof.
  rewrite initial_in_degree_eq. apply od_get_map_const.
Qed.

Lemma precedence_inv_initial : precedence_inv self (∅, initial_in_degree self).
Proof.
  split; [apply initial_in_degree_keys|]. split.
  - intros u v Huv. unfold precedence, get_list in Huv.
    rewrite lookup_empty in Huv. by apply elem_of_nil in Huv.
  - intros v Hv. rewrite initial_in_degree_get by done. f_equal.
    assert (pending self ∅ [] v = 0%nat) as ->; [|done].
    apply sum_list_map_zero. intros u _. rewrite decide_False by apply not_elem_of_nil.
    by unfold get_list, occurrences; rewrite lookup_empty.
Qed.

Lemma add_provider_edge_spec dep_folder provider_folder st :
  dep_folder ∈ local_names self → precedence_inv self st →
  wp_res (add_provider_edge dep_folder provider_folder st) (precedence_inv self).
Proof.
  destruct st as [graph in_degree]. intros Hdep (Hkeys & Hwithin & Hdeg).
  unfold add_provider_edge. case_decide as Hprov; [|done].
  rewrite Hkeys in Hprov.
  apply wp_res_bind, wp_res_getitem; [|by rewrite Hkeys].
  intros degree Hget. rewrite (Hdeg _ Hdep) in Hget. injection Hget as <-.
  split; [by rewrite od_keys_set_present; [|rewrite Hkeys]|]. split.
  - intros u v. unfold precedence. rewrite get_list_dd_append.
    destruct (decide (u = provider_folder)) as [->|Hne]; [|apply Hwithin].
    intros [Hin|Hin%list_elem_of_singleton]%elem_of_app.
    + by apply Hwithin.
    + by subst.
  - intros v Hv. rewrite pending_dd_append by done.
    rewrite decide_False by apply not_elem_of_nil.
    destruct (decide (dep_folder = v)) as [->|Hne].
    + rewrite od_get_set_eq. f_equal. lia.
    + rewrite od_get_set_ne by done. rewrite Nat.add_0_r. by apply Hdeg.
Qed.

Lemma add_requirement_edges_spec dep_folder req_info st :
  dep_folder ∈ local_names self → precedence_inv self st →
  wp_res (add_requirement_edges self dep_folder req_info st) (precedence_inv self).
Proof.
  intros Hdep Hinv. unfold add_requirement_edges.
  destruct (negb _); [done|].
  apply wp_for_res with (I := λ _ st, precedence_inv self st); [done|].
  intros provider rest st' Hinv'. by apply add_provider_edge_spec.
Qed.

Lemma build_precedence_spec full_graph :
  wp_res (build_precedence self full_graph) (precedence_inv self).
Proof.
  unfold build_precedence.
  eapply wp_res_mono.
  - apply wp_for_res with
      (I := λ rest st, precedence_inv self st
                       ∧ ∀ item, item ∈ rest → item.1 ∈ local_names self).
    + split; [apply precedence_inv_initial|].
      intros [f i] Hin. unfold local_names, OrderedDict.keys.
      apply list_elem_of_fmap. by exists (f, i).
    + intros [dep_folder dep_id] rest st [Hinv Hrest].
      assert (Hdep : dep_folder ∈ local_names self) by (apply (Hrest (dep_folder, dep_id)); left).
      eapply wp_res_mono.
      * apply wp_for_res with (I := λ _ st, precedence_inv self st); [done|].
        intros req_info rest' st' Hinv'. by apply add_requirement_edges_spec.
      * intros st' Hinv'. split; [done|]. intros item Hitem. apply Hrest. by right.
  - by intros st [Hinv _].
Qed.

Lemma build_precedence_induced full_graph :
  ∃ in_degree,
    build_precedence self full_graph = Done (induced_graph self full_graph, in_degree)
    ∧ precedence_inv self (induced_graph self full_graph, in_degree).
Proof.
  pose proof (build_precedence_spec full_graph) as H. unfold induced_graph.
  destruct (build_precedence self full_graph) as [[graph in_degree]|]; [|done].
  by exists in_degree.
Qed.

End precedence_facts.

(** *** Which requirements contribute edges *)

Lemma for_res_ext {A S} (f g : A → S → res S) (l : list A) (s : S) :
  (∀ x s, x ∈ l → f x s = g x s) → for_res l f s = for_res l g s.
Proof.
  revert s. induction l as [|x l IH]; intros s Hfg; simpl; [done|].
  rewrite Hfg by left. destruct (g x s) as [s'|e]; simpl; [|done].
  apply IH. intros y s'' Hy. apply Hfg. by right.
Qed.

Lemma for_res_filter {A S} (P : A → Prop) `{!∀ x, Decision (P x)}
    (body : A → S → res S) (l : list A) (s : S) :
  (∀ x s, ¬ P x → body x s = Done s) →
  for_res (filter P l) body s = for_res l body s.
Proof.
  intros Hskip. revert s. induction l as [|x l IH]; intros s; [done|].
  rewrite filter_cons. destruct (decide (P x)) as [HP|HP]; simpl.
  - destruct (body x s); simpl; [apply IH | done].
  - rewrite (Hskip x s HP). simpl. apply IH.
Qed.

Section induced_edges.
Variable self : ModAnalyzer.
Hypothesis folder_to_id_dict : NoDup (local_names self).

Lemma precedence_dd_append graph provider_folder dep_folder u v :
  precedence (dd_append provider_folder dep_folder graph) u v
  ↔ precedence graph u v ∨ (u = provider_folder ∧ v = dep_folder).
Proof.
  unfold precedence. rewrite get_list_dd_append.
  destruct (decide (u = provider_folder)) as [->|Hne].
  - rewrite elem_of_app, list_elem_of_singleton. naive_solver.
  - naive_solver.
Qed.

(** The edges added for one requirement of [dep_folder]. *)
Lemma add_requirement_edges_edges dep_folder req_info graph in_degree :
  dep_folder ∈ local_names self → precedence_inv self (graph, in_degree) →
  wp_res (add_requirement_edges self dep_folder req_info (graph, in_degree))
    (λ st,
       precedence_inv self st
       ∧ ∀ u v,
           precedence st.1 u v ↔
           precedence graph u v
           ∨ (v = dep_folder
              ∧ _is_dependency_satisfied self (edge_id req_info) = true
              ∧ u ∈ get_list (_get_effective_id self (edge_id req_info))
                             (id_to_folders self)
              ∧ u ∈ local_names self)).
Proof.
  intros Hdep Hinv. unfold add_requirement_edges.
  destruct (_is_dependency_satisfied self (edge_id req_info)) eqn:Hsat; simpl.
  2: { split; [done|]. intros u v. naive_solver. }
  set (providers := get_list _ (id_to_folders self)).
  eapply wp_res_mono.
  - apply wp_for_res with
      (I := λ rest st,
         precedence_inv self st
         ∧ ∃ seen, providers = seen ++ rest
             ∧ ∀ u v, precedence st.1 u v ↔
                      precedence graph u v
                      ∨ (v = dep_folder ∧ u ∈ seen ∧ u ∈ local_names self)).
    { split; [done|]. exists []. split; [done|]. intros u v.
      split; [by left | intros [?|(_ & ?%elem_of_nil & _)]; done]. }
    intros provider rest [graph1 in_degree1] [Hinv1 (seen & Hsplit & Hedges)].
    assert (Hkeys : OrderedDict.keys in_degree1 = local_names self)
      by apply Hinv1.
    pose proof (add_provider_edge_spec self folder_to_id_dict dep_folder provider
                  (graph1, in_degree1) Hdep Hinv1) as Hstep.
    unfold add_provider_edge in *. rewrite Hkeys in *.
    destruct (decide (provider ∈ local_names self)) as [Hlocal|Hnot].
    + destruct (getitem dep_folder in_degree1) as [degree|]; [|done]. simpl in *.
      split; [done|]. exists (seen ++ [provider]).
      split; [by rewrite <- app_assoc|]. intros u v.
      rewrite precedence_dd_append, Hedges, elem_of_app, list_elem_of_singleton.
      naive_solver.
    + simpl. split; [done|]. exists (seen ++ [provider]).
      split; [by rewrite <- app_assoc|]. intros u v.
      rewrite Hedges, elem_of_app, list_elem_of_singleton. naive_solver.
  - intros [graph1 in_degree1] [Hinv1 (seen & Hsplit & Hedges)]. simpl in *.
    rewrite app_nil_r in Hsplit. subst seen. split; [done|].
    intros u v. rewrite Hedges. naive_solver.
Qed.

(** The induced graph has the edges the specification describes, and no
    others: an edge from [u] to [v] for every satisfied requirement of the
    id of [v] whose effective provider [u] backs. *)
Lemma induced_graph_edges full_graph u v :
  precedence (induced_graph self full_graph) u v
  ↔ required_provider self full_graph (folder_to_id self) u v.
Proof.
  unfold induced_graph.
  assert (Hbuild : wp_res (build_precedence self full_graph)
    (λ st, ∀ u v, precedence st.1 u v
                  ↔ required_provider self full_graph (folder_to_id self) u v)).
  { unfold build_precedence. eapply wp_res_mono.
    - apply wp_for_res with
        (I := λ rest st,
           precedence_inv self st
           ∧ ∃ seen, folder_to_id self = seen ++ rest
               ∧ ∀ u v, precedence st.1 u v
                        ↔ required_provider self full_graph seen u v).
      { split; [apply (precedence_inv_initial self folder_to_id_dict)|].
        exists []. split; [done|]. intros u' v'. split.
        - unfold precedence, get_list. simpl.
          rewrite (lookup_empty (M := gmap string)). by intros ?%elem_of_nil.
        - intros (? & ? & ?%elem_of_nil & _). done. }
      intros [dep_folder dep_id] rest [graph in_degree]
        [Hinv (seen & Hsplit & Hedges)].
      assert (Hdep : dep_folder ∈ local_names self).
      { unfold local_names, OrderedDict.keys. rewrite Hsplit.
        apply list_elem_of_fmap. exists (dep_folder, dep_id).
        split; [done|]. apply elem_of_app. right. left. }
      eapply wp_res_mono.
      + apply wp_for_res with
          (I := λ rest' st,
             precedence_inv self st
             ∧ ∃ seen', get_list dep_id full_graph = seen' ++ rest'
                 ∧ ∀ u v,
                     precedence st.1 u v ↔
                     precedence graph u v
                     ∨ (v = dep_folder
                        ∧ ∃ req_info,
                            req_info ∈ seen'
                            ∧ _is_dependency_satisfied self (edge_id req_info) = true
                            ∧ u ∈ get_list (_get_effective_id self (edge_id req_info))
                                           (id_to_folders self)
                            ∧ u ∈ local_names self)).
        { split; [done|]. exists []. split; [done|]. intros u' v'.
          split; [by left|]. intros [?|(_ & ? & ?%elem_of_nil & _)]; done. }
        intros req_info rest' [graph1 in_degree1] [Hinv1 (seen' & Hsplit' & Hedges')].
        eapply wp_res_mono; [by apply add_requirement_edges_edges|].
        intros [graph2 in_degree2] [Hinv2 Hedges2]. simpl in *.
        split; [done|]. exists (seen' ++ [req_info]).
        split; [by rewrite <- app_assoc|]. intros u' v'.
        rewrite Hedges2, Hedges'. split.
        * intros [[?|(-> & r & Hr & ?)]|(-> & ?)]; [by left | right | right].
          -- split; [done|]. exists r. split; [|done]. apply elem_of_app. by left.
          -- split; [done|]. exists req_info. split; [|done].
             apply elem_of_app. right. left.
        * intros [?|(-> & r & [Hr|Hr%list_elem_of_singleton]%elem_of_app & ?)].
          -- by left; left.
          -- left. right. split; [done|]. by exists r.
          -- subst r. by right.
      + intros [graph1 in_degree1] [Hinv1 (seen' & Hsplit' & Hedges')].
        simpl in *. rewrite app_nil_r in Hsplit'. subst seen'.
        split; [done|]. exists (seen ++ [(dep_folder, dep_id)]).
        split; [by rewrite <- app_assoc|]. intros u' v'.
        rewrite Hedges', Hedges. unfold required_provider. split.
        * intros [(i & r & Hin & ?)|(-> & r & Hr & ?)].
          -- exists i, r. split; [|done]. apply elem_of_app. by left.
          -- exists dep_id, r. split; [|done]. apply elem_of_app. right. left.
        * intros (i & r & [Hin|Hin%list_elem_of_singleton]%elem_of_app & Hr & ?).
          -- left. by exists i, r.
          -- injection Hin as -> ->. right. split; [done|]. by exists r.
    - intros [graph in_degree] [_ (seen & Hsplit & Hedges)]. simpl in *.
      rewrite app_nil_r in Hsplit. by subst seen. }
  destruct (build_precedence self full_graph) as [[graph in_degree]|]; [|done].
  apply Hbuild.
Qed.

End induced_edges.

(** C2 (amended). In the construction of the induced graph, a requirement
    edge that is not satisfied (its effective id is not installed)
    contributes no precedence edge and no in-degree increment, whether or
    not its id is in the ignore set: the step that handles it leaves the
    graph and the in-degrees as they are, and dropping every unsatisfied
    edge from the network changes nothing.  The ignore set itself is not
    consulted: the result is the same for every ignore set. *)
Theorem unsatisfied_requirement_adds_no_edge (self : ModAnalyzer) :
  (∀ dep_folder req_info st,
     _is_dependency_satisfied self (edge_id req_info) = false →
     add_requirement_edges self dep_folder req_info st = Done st)
  ∧ (∀ full_graph,
       build_precedence self (satisfied_edges self full_graph)
       = build_precedence self full_graph)
  ∧ (∀ ignore full_graph,
       build_precedence (with_ignore_ids self ignore) full_graph
       = build_precedence self full_graph).
Proof.
  assert (Hskip : ∀ dep_folder req_info st,
    _is_dependency_satisfied self (edge_id req_info) = false →
    add_requirement_edges self dep_folder req_info st = Done st).
  { intros dep_folder req_info st Hunsat. unfold add_requirement_edges.
    by rewrite Hunsat. }
  split; [done|]. split.
  - intros full_graph. unfold build_precedence.
    apply for_res_ext. intros [dep_folder dep_id] st _.
    unfold satisfied_edges, get_list. rewrite lookup_fmap.
    destruct (full_graph !! dep_id) as [reqs|]; simpl; [|done].
    apply for_res_filter. intros req_info st' Hunsat. apply Hskip.
    by destruct (_is_dependency_satisfied self (edge_id req_info)).
  - intros ignore full_graph. reflexivity.
Qed.

(** C2, as stated, fails: B requires mod 1, which is ignored and
    installed as A; the requirement still adds the edge from A to B and
    raises the in-degree of B. *)
Lemma ignored_requirement_adds_edge :
  "1" ∈ ignore_ids analyzer_ab
  ∧ mkEdge "1" "" ∈ get_list "2" graph_ab
  ∧ ∃ graph in_degree,
      build_precedence analyzer_ab graph_ab = Done (graph, in_degree)
      ∧ get_list "A" graph = ["B"]
      ∧ OrderedDict.get "B" in_degree = Some 1.
Proof.
  split; [vm_compute; reflexivity|].
  split; [left|].
  eexists _, _. split; [vm_compute; reflexivity|].
  split; vm_compute; reflexivity.
Qed.

(** ** The ready queue *)

Lemma string_compare_refl (s : string) : String.compare s s = Eq.
Proof.
  pose proof (String.compare_antisym s s) as H.
  by destruct (String.compare s s).
Qed.

Lemma string_ltb_leb (a b : string) :
  String.ltb a b = true ↔ String.leb a b = true ∧ a ≠ b.
Proof.
  unfold String.ltb, String.leb.
  destruct (String.compare a b) eqn:Hc.
  - apply String.compare_eq_iff in Hc. split; [done | by intros [_ ?]].
  - split; [|done]. intros _. split; [done|]. intros ->.
    by rewrite string_compare_refl in Hc.
  - split; [done | by intros [? _]].
Qed.

Lemma string_ltb_irrefl (a : string) : String.ltb a a = false.
Proof. unfold String.ltb. by rewrite string_compare_refl. Qed.

Lemma string_ltb_trans (a b c : string) :
  String.ltb a b = true → String.ltb b c = true → String.ltb a c = true.
Proof.
  rewrite !string_ltb_leb. intros [Hab Hne] [Hbc Hne'].
  assert (Hac : String.le a c) by (by trans b; unfold String.le; rewrite ?Hab, ?Hbc).
  split; [by apply Is_true_true|]. intros ->.
  apply Hne. apply (anti_symm String.le); unfold String.le; by rewrite ?Hab, ?Hbc.
Qed.

Lemma string_ltb_total (a b : string) :
  String.ltb a b = false → String.ltb b a = false → a = b.
Proof.
  unfold String.ltb. rewrite (String.compare_antisym b a).
  destruct (String.compare a b) eqn:Hc; simpl; try done.
  intros _ _. by apply String.compare_eq_iff.
Qed.

Lemma key_lt_spec (a b : key) :
  key_lt a b = true ↔ a.1 < b.1 ∨ (a.1 = b.1 ∧ String.ltb a.2 b.2 = true).
Proof.
  unfold key_lt.
  rewrite orb_true_iff, andb_true_iff, Z.ltb_lt, Z.eqb_eq. tauto.
Qed.

Lemma key_lt_irrefl (a : key) : key_lt a a = false.
Proof.
  apply not_true_iff_false. rewrite key_lt_spec, string_ltb_irrefl.
  intros [?|[_ ?]]; [lia | done].
Qed.

Lemma key_lt_trans (a b c : key) :
  key_lt a b = true → key_lt b c = true → key_lt a c = true.
Proof.
  rewrite !key_lt_spec. intros [?|[? ?]] [?|[? ?]]; try (left; lia).
  right. split; [lia|]. by apply string_ltb_trans with b.2.
Qed.

Lemma key_lt_total (a b : key) :
  key_lt a b = false → key_lt b a = false → a = b.
Proof.
  intros Hab%not_true_iff_false Hba%not_true_iff_false.
  rewrite key_lt_spec in Hab, Hba.
  destruct a as [pa na], b as [pb nb]. simpl in *.
  assert (pa = pb) by lia. subst pb. f_equal.
  apply string_ltb_total.
  - destruct (String.ltb na nb); [|done]. exfalso. apply Hab. by right.
  - destruct (String.ltb nb na); [|done]. exfalso. apply Hba. by right.
Qed.

(** Nothing below [b] is below [a] unless [b] itself is. *)
Lemma key_lt_false_trans (a b c : key) :
  key_lt a b = false → key_lt b c = false → key_lt a c = false.
Proof.
  intros Hab Hbc. destruct (key_lt a c) eqn:Hac; [|done]. exfalso.
  destruct (key_lt b a) eqn:Hba.
  - pose proof (key_lt_trans b a c Hba Hac) as Hbc'. by rewrite Hbc' in Hbc.
  - rewrite (key_lt_total a b Hab Hba) in Hac. by rewrite Hac in Hbc.
Qed.

Lemma heappop_None heap : heappop heap = None ↔ heap = [].
Proof.
  destruct heap as [|x heap]; [done|]. simpl.
  destruct (heappop heap) as [[y rest]|]; [|done].
  by destruct (key_lt y x).
Qed.

(** [heappop] takes the least item out of the heap and leaves the rest. *)
Lemma heappop_Some heap item rest :
  heappop heap = Some (item, rest) →
  heap ≡ₚ item :: rest ∧ ∀ other, other ∈ heap → key_lt other item = false.
Proof.
  revert item rest. induction heap as [|x heap IH]; intros item rest; [done|].
  simpl. destruct (heappop heap) as [[y rest']|] eqn:Hpop.
  - destruct (IH y rest' eq_refl) as [Hperm Hmin].
    destruct (key_lt y x) eqn:Hyx; intros [= <- <-].
    + split; [by rewrite Hperm, Permutation_swap|].
      intros other [->|Hin]%elem_of_cons; [|by apply Hmin].
      destruct (key_lt x y) eqn:Hxy; [|done].
      pose proof (key_lt_trans x y x Hxy Hyx) as Hxx.
      by rewrite key_lt_irrefl in Hxx.
    + split; [done|].
      intros other [->|Hin]%elem_of_cons; [apply key_lt_irrefl|].
      apply key_lt_false_trans with y; [by apply Hmin | done].
  - intros [= <- <-]. apply heappop_None in Hpop as ->.
    split; [done|]. intros other ->%list_elem_of_singleton. apply key_lt_irrefl.
Qed.

(** ** The topological sorter: the main loop *)

Lemma app_snoc_inv {A} (l : list A) (u : A) l1 v l2 :
  l ++ [u] = l1 ++ v :: l2 →
  (l2 = [] ∧ v = u ∧ l1 = l) ∨ (∃ l2', l2 = l2' ++ [u] ∧ l = l1 ++ v :: l2').
Proof.
  intros Heq. destruct (decide (l2 = [])) as [->|Hne].
  - left. apply app_inj_tail in Heq as [-> ->]. done.
  - right. destruct (exists_last Hne) as (l2' & x & ->).
    rewrite app_comm_cons, app_assoc in Heq.
    apply app_inj_tail in Heq as [-> ->]. eauto.
Qed.

Section sort_facts.
Context {World : Type}.
Variable clock : World → Z * World.
Variable scrape : string → World → ScrapeResult * World.
Variable self : ModAnalyzer.
Hypothesis folder_to_id_dict : NoDup (local_names self).
Local Abbreviation Store := (@Store World).
Local Abbreviation M := (@M World).
Implicit Types (σ : Store) (graph : gmap string (list string)).

Lemma folder_priority_spec folder σ :
  folder ∈ local_names self →
  wp self (folder_priority clock scrape self folder)
     (λ priority _, ∃ mod_data, priority = category_priority mod_data) σ.
Proof.
  intros Hfolder. unfold folder_priority.
  apply triple_bind, triple_lift, wp_res_getitem; [|done].
  intros mod_id _. apply triple_bind, triple_get_mod_data; [done|].
  intros mod_data σ' _ _. apply triple_ret. eauto.
Qed.

(** The ready queue starts with the names of in-degree zero. *)
Lemma ready_queue_spec (in_degree : odict Z) σ :
  OrderedDict.keys in_degree = local_names self →
  wp self (for_each in_degree (push_if_ready clock scrape self) [])
     (λ ready_queue _,
        ready_queue.*2 ≡ₚ (filter (λ item, item.2 = 0) in_degree).*1
        ∧ ∀ item, item ∈ ready_queue →
                  ∃ mod_data, item.1 = category_priority mod_data) σ.
Proof.
  intros Hkeys. eapply triple_mono.
  - apply triple_for_each with
      (I := λ rest (ready_queue : list key) _,
         ∃ seen, in_degree = seen ++ rest
                 ∧ ready_queue.*2 ≡ₚ (filter (λ item, item.2 = 0) seen).*1
                 ∧ ∀ item, item ∈ ready_queue →
                           ∃ mod_data, item.1 = category_priority mod_data).
    { exists []. split; [done|]. split; [done|]. by intros item ?%elem_of_nil. }
    intros [folder degree] rest ready_queue σ' (seen & Hsplit & Hperm & Hprio).
    assert (Hsplit' : in_degree = (seen ++ [(folder, degree)]) ++ rest)
      by (by rewrite <- app_assoc).
    unfold push_if_ready. destruct (decide (degree = 0)) as [->|Hne].
    + apply triple_bind. eapply triple_mono.
      * apply folder_priority_spec. rewrite <- Hkeys, Hsplit.
        unfold OrderedDict.keys. rewrite fmap_app, fmap_cons.
        apply elem_of_app. right. left.
      * intros priority σ'' [mod_data ->]. apply triple_ret.
        exists (seen ++ [(folder, 0)]). split; [done|]. split.
        -- rewrite filter_app, filter_cons_True, filter_nil, fmap_app by done.
           simpl. rewrite Hperm. by rewrite Permutation_app_comm.
        -- intros item [->|Hin]%elem_of_cons; [by exists mod_data | by apply Hprio].
    + apply triple_ret. exists (seen ++ [(folder, degree)]).
      split; [done|]. split; [|done].
      rewrite filter_app, filter_cons_False, filter_nil by done.
      by rewrite app_nil_r.
  - intros ready_queue σ' (seen & Hsplit & Hperm & Hprio).
    rewrite app_nil_r in Hsplit. by subst seen.
Qed.

Lemma elem_of_zero_keys (in_degree : odict Z) v :
  NoDup (OrderedDict.keys in_degree) →
  v ∈ (filter (λ item, item.2 = 0) in_degree).*1
  ↔ OrderedDict.get v in_degree = Some 0.
Proof.
  intros Hnd. rewrite od_get_elem_of by done. rewrite list_elem_of_fmap. split.
  - intros ([k d] & -> & [Hz Hin]%list_elem_of_filter). simpl in *. by subst d.
  - intros Hin. exists (v, 0). split; [done|]. by apply list_elem_of_filter.
Qed.

Lemma sort_start_spec full_graph σ :
  wp self (sort_start clock scrape self full_graph)
     (λ start _,
        start.1 = induced_graph self full_graph
        ∧ graph_within self start.1
        ∧ sort_inv self start.1 [] start.2
        ∧ start.2.2 = []) σ.
Proof.
  unfold sort_start.
  destruct (build_precedence_induced self folder_to_id_dict full_graph)
    as (in_degree & -> & Hkeys & Hwithin & Hdeg).
  apply triple_bind, triple_lift. simpl.
  apply triple_bind. eapply triple_mono; [by apply ready_queue_spec|].
  intros ready_queue σ' [Hperm Hprio]. apply triple_ret. simpl.
  split; [done|]. split; [done|]. split; [|done].
  assert (Hnd : NoDup (OrderedDict.keys in_degree)) by (by rewrite Hkeys).
  assert (Hready : ∀ v, v ∈ ready_queue.*2 ↔ OrderedDict.get v in_degree = Some 0).
  { intros v. by rewrite Hperm, elem_of_zero_keys. }
  split; [done|]. split.
  { intros v Hv. rewrite (Hdeg v Hv). unfold occurrences. simpl.
    by rewrite Nat.add_0_r. }
  split.
  { simpl. rewrite Hperm. apply NoDup_fmap_fst.
    - intros k d d' [_ Hd]%list_elem_of_filter [_ Hd']%list_elem_of_filter.
      apply od_get_elem_of in Hd, Hd'; [|done|done]. congruence.
    - apply NoDup_filter. apply (NoDup_fmap_1 fst). exact Hnd. }
  split.
  { simpl. intros v Hv%Hready. rewrite <- Hkeys. by eapply od_get_Some_keys. }
  split.
  { simpl. intros v Hv. rewrite Hready, (Hdeg v Hv).
    unfold occurrences. simpl. rewrite Nat.add_0_r.
    split; [by intros -> | intros [= ?]; lia]. }
  split; [|done].
  intros l1 v l2 Hnil. by destruct l1.
Qed.

(** Releasing one successor of the emitted folder. *)
Lemma release_successor_spec graph v_folder todo in_degree ready_queue sorted_order σ :
  v_folder ∈ local_names self →
  sort_inv self graph (v_folder :: todo) (in_degree, ready_queue, sorted_order) →
  wp self (release_successor clock scrape self v_folder (in_degree, ready_queue))
     (λ st _,
        sort_inv self graph todo (st.1, st.2, sorted_order)
        ∧ ∀ item, item ∈ ready_queue → item ∈ st.2) σ.
Proof.
  intros Hv (Hkeys & Hdeg & Hnd & Hsub & Hzero & Hbefore & Hprio).
  unfold release_successor.
  apply triple_bind, triple_lift, wp_res_getitem; [|by rewrite Hkeys].
  intros degree Hget. rewrite (Hdeg _ Hv) in Hget. injection Hget as <-.
  apply triple_bind, triple_lift, wp_res_getitem;
    [|by rewrite od_keys_set_present; rewrite Hkeys].
  intros degree. rewrite od_get_set_eq. intros [= <-].
  rewrite occurrences_cons_eq.
  set (in_degree' := OrderedDict.set v_folder _ in_degree).
  assert (Hkeys' : OrderedDict.keys in_degree' = local_names self).
  { unfold in_degree'. by rewrite od_keys_set_present; rewrite Hkeys. }
  assert (Hdeg' : ∀ v, v ∈ local_names self →
            OrderedDict.get v in_degree'
            = Some (Z.of_nat (pending self graph sorted_order v + occurrences v todo))).
  { intros v Hin. unfold in_degree'. destruct (decide (v_folder = v)) as [<-|Hne].
    - rewrite od_get_set_eq. f_equal. lia.
    - rewrite od_get_set_ne by done.
      by rewrite (Hdeg v Hin), occurrences_cons_ne. }
  assert (Hfresh : v_folder ∉ sorted_order ++ ready_queue.*2).
  { intros Hin%(Hzero _ Hv). rewrite occurrences_cons_eq in Hin. lia. }
  assert (Hzero_other : ∀ v, v ∈ local_names self → v ≠ v_folder →
            (pending self graph sorted_order v + occurrences v todo = 0)%nat
            ↔ v ∈ sorted_order ++ ready_queue.*2).
  { intros v Hin Hne. rewrite <- (Hzero v Hin).
    by rewrite (occurrences_cons_ne v v_folder). }
  destruct (decide (_ = 0)) as [Hz|Hnz].
  - apply triple_bind. eapply triple_mono; [by apply folder_priority_spec|].
    intros v_prio σ' [mod_data ->]. apply triple_ret. simpl.
    split; [|by intros item ?; right].
    split; [done|]. split; [done|]. split.
    { apply NoDup_app. apply NoDup_app in Hnd as (Hnd1 & Hdisj & Hnd2).
      split; [done|]. split.
      - intros x Hx [->|Hx']%elem_of_cons; [|by apply (Hdisj x)].
        apply Hfresh, elem_of_app. by left.
      - apply NoDup_cons. split; [|done]. intros Hin.
        apply Hfresh, elem_of_app. by right. }
    split.
    { intros v [Hin|[->|Hin]%elem_of_cons]%elem_of_app; [| done |];
        apply Hsub, elem_of_app; [by left | by right]. }
    split.
    { intros v Hin. destruct (decide (v = v_folder)) as [->|Hne].
      - split; [|lia]. intros _. apply elem_of_app. right. left.
      - rewrite (Hzero_other v Hin Hne), !elem_of_app, elem_of_cons. 
        split; [tauto | intros [?|[?|?]]; tauto]. }
    split; [done|].
    intros item [->|Hin]%elem_of_cons; [by exists mod_data | by apply Hprio].
  - apply triple_ret. simpl. split; [|done].
    split; [done|]. split; [done|]. split; [done|]. split; [done|].
    split; [|done].
    intros v Hin. destruct (decide (v = v_folder)) as [->|Hne].
    + split; [lia | done].
    + by apply Hzero_other.
Qed.

(** One iteration emits the least ready item and releases its successors. *)
Lemma sort_step_spec graph st σ :
  graph_within self graph → sort_inv self graph [] st → st.1.2 ≠ [] →
  wp self (sort_step clock scrape self graph st)
     (λ st' _,
        sort_inv self graph [] st'
        ∧ ∃ priority u_folder ready_queue,
            heappop st.1.2 = Some ((priority, u_folder), ready_queue)
            ∧ st'.2 = st.2 ++ [u_folder]
            ∧ ∀ item, item ∈ ready_queue → item ∈ st'.1.2) σ.
Proof.
  destruct st as [[in_degree ready_queue] sorted_order]. simpl.
  intros Hwithin (Hkeys & Hdeg & Hnd & Hsub & Hzero & Hbefore & Hprio) Hne.
  unfold sort_step.
  destruct (heappop ready_queue) as [[[priority u_folder] ready_queue']|] eqn:Hpop;
    [|by apply heappop_None in Hpop].
  destruct (heappop_Some _ _ _ Hpop) as [Hperm _].
  assert (Hperm2 : ready_queue.*2 ≡ₚ u_folder :: ready_queue'.*2)
    by (by rewrite Hperm).
  assert (Hall : sorted_order ++ ready_queue.*2
                 ≡ₚ (sorted_order ++ [u_folder]) ++ ready_queue'.*2).
  { by rewrite Hperm2, <- app_assoc. }
  assert (Hu : u_folder ∈ local_names self).
  { apply Hsub. rewrite Hall, !elem_of_app, list_elem_of_singleton. tauto. }
  assert (Hunew : u_folder ∉ sorted_order).
  { rewrite Hperm2 in Hnd. apply NoDup_app in Hnd as (_ & Hdisj & _).
    intros Hin. apply (Hdisj _ Hin). left. }
  assert (Hupred : ∀ w, precedence graph w u_folder → w ∈ sorted_order).
  { intros w Hw. apply (pending_zero self graph sorted_order u_folder).
    - assert (Hin : u_folder ∈ sorted_order ++ ready_queue.*2).
      { rewrite Hall, !elem_of_app, list_elem_of_singleton. tauto. }
      apply (Hzero _ Hu) in Hin. lia.
    - by apply (Hwithin w u_folder).
    - done. }
  apply triple_bind. eapply triple_mono.
  - apply triple_for_each with
      (I := λ todo (st : odict Z * list key) _,
         sort_inv self graph todo (st.1, st.2, sorted_order ++ [u_folder])
         ∧ (∀ item, item ∈ ready_queue' → item ∈ st.2)
         ∧ ∀ v, v ∈ todo → v ∈ local_names self).
    + simpl. split; [|split; [done|]].
      * split; [done|]. split.
        { intros v Hv. rewrite (Hdeg v Hv). do 2 f_equal.
          unfold occurrences at 1. simpl. rewrite Nat.add_0_r.
          by apply pending_emit. }
        split; [by rewrite <- Hall|]. split.
        { intros v Hv. apply Hsub. by rewrite Hall. }
        split.
        { intros v Hv. rewrite <- Hall, <- (Hzero v Hv).
          unfold occurrences at 2. simpl. rewrite Nat.add_0_r.
          by rewrite (pending_emit self folder_to_id_dict graph sorted_order u_folder v). }
        split.
        { intros l1 v l2 [(-> & -> & ->)|(l2' & -> & Heq)]%app_snoc_inv w Hw.
          - by apply Hupred.
          - by apply (Hbefore l1 v l2'). }
        intros item Hin. apply Hprio. rewrite Hperm. by right.
      * intros v Hv. by apply (Hwithin u_folder v).
    + intros v_folder todo [in_degree1 ready_queue1] σ1 (Hinv & Hkeep & Htodo).
      simpl in *. eapply triple_mono.
      * apply release_successor_spec; [apply Htodo; left | done].
      * intros [in_degree2 ready_queue2] σ2 [Hinv2 Hkeep2]. simpl in *.
        split; [done|]. split; [by intros item ?; apply Hkeep2, Hkeep|].
        intros v Hv. apply Htodo. by right.
  - intros [in_degree1 ready_queue1] σ1 (Hinv & Hkeep & _). simpl in *.
    apply triple_ret. simpl. split; [done|]. eauto 10.
Qed.

End sort_facts.

(** ** The topological sorter: results *)

Lemma cyclic_of_filter (in_degree : odict Z) (P : string → Prop)
    `{!∀ x, Decision (P x)} :
  (∀ k d, (k, d) ∈ in_degree → 0 < d ↔ P k) →
  cyclic_of in_degree = filter P (OrderedDict.keys in_degree).
Proof.
  unfold cyclic_of, OrderedDict.keys.
  induction in_degree as [|[k d] l IH]; intros HP; [done|].
  assert (IH' : (filter (λ item, 0 < item.2) l).*1 = filter P l.*1).
  { apply IH. intros k' d' Hin. apply HP. by right. }
  specialize (HP k d (ltac:(left))).
  rewrite fmap_cons. destruct (decide (P k)) as [Hk|Hk].
  - rewrite (filter_cons_True (λ item : string * Z, 0 < item.2))
      by (simpl; tauto).
    rewrite (filter_cons_True P) by done.
    rewrite fmap_cons. by f_equal.
  - rewrite (filter_cons_False (λ item : string * Z, 0 < item.2))
      by (simpl; tauto).
    by rewrite (filter_cons_False P).
Qed.



Section sort_results.
Context {World : Type}.
Variable clock : World → Z * World.
Variable scrape : string → World → ScrapeResult * World.
Variable self : ModAnalyzer.
Hypothesis folder_to_id_dict : NoDup (local_names self).
Local Abbreviation Store := (@Store World).
Local Abbreviation M := (@M World).
Implicit Types (σ : Store) (graph : gmap string (list string)).

Lemma sort_inv_length graph todo in_degree ready_queue sorted_order :
  sort_inv self graph todo (in_degree, ready_queue, sorted_order) →
  (length sorted_order + length ready_queue ≤ length (local_names self))%nat.
Proof.
  intros (_ & _ & Hnd & Hsub & _).
  pose proof (submseteq_length _ _ (NoDup_submseteq _ _ Hnd Hsub)) as Hlen.
  by rewrite length_app, length_fmap in Hlen.
Qed.

Lemma triple_enough_fuel {A} E F (m : M A) (Q : A → Store → Prop) σ :
  triple E False m Q σ → triple E F m Q σ.
Proof. unfold triple. by destruct (m σ). Qed.

(** The main loop runs until the ready queue is empty: it only appends to
    the order, and every name that was ready ends up emitted.  It runs
    out of fuel ([F]) only when given less than one unit per name not yet
    emitted. *)
Lemma sort_loop_spec (F : Prop) graph fuel st σ :
  graph_within self graph → sort_inv self graph [] st →
  (¬ (length (local_names self) - length st.2 < fuel)%nat → F) →
  triple (benign self) F (sort_loop clock scrape self fuel graph st)
     (λ st' _,
        sort_inv self graph [] st' ∧ st'.1.2 = []
        ∧ st.2 `prefix_of` st'.2
        ∧ ∀ item, item ∈ st.1.2 → item.2 ∈ st'.2) σ.
Proof.
  intros Hwithin. revert st σ.
  induction fuel as [|fuel IH]; intros st σ Hinv Hfuel; [apply Hfuel; lia|].
  destruct st as [[in_degree ready_queue] sorted_order]. simpl.
  destruct ready_queue as [|item0 ready_queue0] eqn:Hq.
  { apply triple_ret. simpl. split; [done|]. split; [done|]. split; [done|].
    by intros item ?%elem_of_nil. }
  rewrite <- Hq in *. assert (Hne : ready_queue ≠ []) by (by rewrite Hq).
  clear Hq item0 ready_queue0.
  pose proof (sort_inv_length _ _ _ _ _ Hinv) as Hlen.
  assert (length ready_queue ≠ 0%nat) by (by destruct ready_queue).
  apply triple_bind. eapply triple_mono.
  { apply triple_enough_fuel.
    by apply (sort_step_spec clock scrape self folder_to_id_dict graph
                (in_degree, ready_queue, sorted_order)). }
  intros [[in_degree1 ready_queue1] sorted_order1] σ1.
  intros (Hinv1 & priority & u_folder & ready_queue' & Hpop & Horder & Hkeep).
  simpl in *. subst sorted_order1. eapply triple_mono.
  { apply IH; [done|]. simpl. rewrite length_app. simpl.
    intros Hless. apply Hfuel. lia. }
  intros [[in_degree2 ready_queue2] sorted_order2] σ2.
  simpl. intros (Hinv2 & Hempty & Hprefix & Hemitted).
  split; [done|]. split; [done|]. split.
  { trans (sorted_order ++ [u_folder]); [by apply prefix_app_r | done]. }
  intros item Hitem. apply heappop_Some in Hpop as [Hperm _].
  rewrite Hperm in Hitem. apply elem_of_cons in Hitem as [->|Hitem].
  - simpl. destruct Hprefix as [suffix ->]. rewrite !elem_of_app.
    left. right. left.
  - by apply Hemitted, Hkeep.
Qed.

Lemma perform_topological_sort_unfold fuel full_graph σ :
  _perform_topological_sort clock scrape self fuel full_graph σ
  = (start ← sort_start clock scrape self full_graph;
     st ← sort_loop clock scrape self fuel start.1 start.2;
     mret (st.2, cyclic_of st.1.1)) σ.
Proof.
  unfold _perform_topological_sort, sort_start, mbind, M_bind, mret, M_ret.
  destruct (lift (build_precedence self full_graph) σ) as [[graph in_degree] σ1| |];
    [|done|done].
  destruct (for_each _ _ _ σ1) as [ready_queue σ2| |]; [|done|done].
  simpl. by destruct (sort_loop _ _ _ _ _ _ _) as [[[? ?] ?] ?| |].
Qed.

(** What the sorter returns, in terms of the final state of the loop. *)
Lemma perform_topological_sort_spec fuel full_graph σ :
  (length (local_names self) < fuel)%nat →
  wp self (_perform_topological_sort clock scrape self fuel full_graph)
     (λ result _,
        ∃ in_degree,
          sort_inv self (induced_graph self full_graph) [] (in_degree, [], result.1)
          ∧ result.2 = cyclic_of in_degree) σ.
Proof.
  intros Hfuel. unfold wp, triple. rewrite perform_topological_sort_unfold.
  fold (triple (benign self) False
          (start ← sort_start clock scrape self full_graph;
           st ← sort_loop clock scrape self fuel start.1 start.2;
           mret (st.2, cyclic_of st.1.1))
          (λ result _,
             ∃ in_degree,
               sort_inv self (induced_graph self full_graph) []
                 (in_degree, [], result.1)
               ∧ result.2 = cyclic_of in_degree) σ).
  apply triple_bind. eapply triple_mono; [by apply sort_start_spec|].
  intros [graph st] σ1 (Hgraph & Hwithin & Hinv & Hstart). simpl in *. subst graph.
  apply triple_bind. eapply triple_mono.
  { apply sort_loop_spec; [done | done | simpl; lia]. }
  intros [[in_degree ready_queue] sorted_order] σ2 (Hinv2 & Hempty & _).
  simpl in *. subst ready_queue. apply triple_ret. simpl. eauto.
Qed.

(** When the loop has ended, the cyclic names are the local names that
    were not emitted, in the order of [folder_to_id]. *)
Lemma cyclic_of_final graph in_degree sorted_order :
  sort_inv self graph [] (in_degree, [], sorted_order) →
  cyclic_of in_degree = filter (λ f, f ∉ sorted_order) (local_names self).
Proof.
  intros (Hkeys & Hdeg & Hnd & Hsub & Hzero & _).
  rewrite <- Hkeys. apply cyclic_of_filter. intros k d Hin.
  assert (Hk : k ∈ local_names self).
  { rewrite <- Hkeys. unfold OrderedDict.keys. apply list_elem_of_fmap.
    by exists (k, d). }
  apply od_get_elem_of in Hin; [|by rewrite Hkeys].
  rewrite (Hdeg k Hk) in Hin. injection Hin as <-.
  specialize (Hzero k Hk). simpl in Hzero. rewrite app_nil_r in Hzero.
  rewrite <- Hzero. lia.
Qed.

Lemma sort_final_partition graph in_degree sorted_order :
  sort_inv self graph [] (in_degree, [], sorted_order) →
  sorted_order ++ cyclic_of in_degree ≡ₚ local_names self
  ∧ ∀ f, f ∈ sorted_order → f ∉ cyclic_of in_degree.
Proof.
  intros Hinv. rewrite (cyclic_of_final _ _ _ Hinv).
  destruct Hinv as (_ & _ & Hnd & Hsub & _). simpl in *.
  rewrite app_nil_r in Hnd, Hsub. split.
  - rewrite <- (filter_app_complement (λ f, f ∈ sorted_order) (local_names self))
      at 2.
    apply Permutation_app; [|done].
    apply NoDup_Permutation; [done | by apply NoDup_filter|].
    intros f. rewrite list_elem_of_filter. split; [|tauto].
    intros Hf. split; [done | by apply Hsub].
  - intros f Hf [Hnot _]%list_elem_of_filter. done.
Qed.

End sort_results.

Section sort_theorems.
Context {World : Type}.
Variable clock : World → Z * World.
Variable scrape : string → World → ScrapeResult * World.
Variable self : ModAnalyzer.
Local Abbreviation Store := (@Store World).
Local Abbreviation M := (@M World).
Implicit Types (σ : Store) (graph : gmap string (list string)).

(** C10. For every network, cyclic or not, the sorter returns, and its
    two lists partition the local names: together they hold every key of
    [folder_to_id] exactly once, and no name is in both.  ([folder_to_id]
    is a dict, so its keys are distinct; the loop is given fuel for one
    iteration per local name; [wp]: the one exception that can pass
    through is the [ConnectionError] of [get_mod_data] when no browser
    page is open.) *)
Theorem sort_partitions_local_names fuel full_graph σ :
  NoDup (local_names self) →
  (length (local_names self) < fuel)%nat →
  wp self (_perform_topological_sort clock scrape self fuel full_graph)
     (λ result _,
        let '(sorted_order, cyclic_nodes) := result in
        sorted_order ++ cyclic_nodes ≡ₚ local_names self
        ∧ NoDup (sorted_order ++ cyclic_nodes)
        ∧ ∀ f, f ∈ sorted_order → f ∉ cyclic_nodes) σ.
Proof.
  intros Hdict Hfuel. eapply triple_mono.
  { by apply perform_topological_sort_spec. }
  intros [sorted_order cyclic_nodes] σ' (in_degree & Hinv & Heq).
  simpl in Heq. subst cyclic_nodes. simpl.
  destruct (sort_final_partition scrape self Hdict _ _ _ Hinv) as [Hperm Hdisj].
  split; [done|]. split; [by rewrite Hperm | done].
Qed.


End sort_theorems.

Lemma sort_partitions_local_names_witness :
  wp analyzer_cycle
    (_perform_topological_sort clock0 (catalog_scrape catalog_xyz) analyzer_cycle
       4 graph_cycle)
    (λ result _,
       let '(sorted_order, cyclic_nodes) := result in
       sorted_order ++ cyclic_nodes ≡ₚ local_names analyzer_cycle
       ∧ NoDup (sorted_order ++ cyclic_nodes)
       ∧ ∀ f, f ∈ sorted_order → f ∉ cyclic_nodes)
    store0.
Proof.
  apply (sort_partitions_local_names clock0 (catalog_scrape catalog_xyz)
           analyzer_cycle 4 graph_cycle store0).
  - vm_compute. repeat (apply NoDup_cons; split; [set_solver|]). apply NoDup_nil_2.
  - vm_compute. lia.
Defined.

(** The two-cycle of the specification: both names are reported as
    cyclic and kept out of the order. *)
Example sort_two_cycle :
  ∃ σ',
    _perform_topological_sort clock0 (catalog_scrape catalog_xyz) analyzer_cycle
      4 graph_cycle store0 = Ok (["C"], ["A"; "B"]) σ'.
Proof. eexists. vm_compute. reflexivity. Qed.

(** The end-to-end example of the specification. *)
Example sort_xyz :
  ∃ σ',
    _perform_topological_sort clock0 (catalog_scrape catalog_xyz) analyzer_xyz
      4 graph_xyz store0 = Ok (["X"; "Y"; "Z"], []) σ'.
Proof. eexists. vm_compute. reflexivity. Qed.




(** ** The topological sorter: ties *)

Section sort_ties.
Context {World : Type}.
Variable clock : World → Z * World.
Variable scrape : string → World → ScrapeResult * World.
Variable self : ModAnalyzer.
Hypothesis folder_to_id_dict : NoDup (local_names self).
Local Abbreviation Store := (@Store World).
Local Abbreviation M := (@M World).
Implicit Types (σ : Store) (graph : gmap string (list string)).








End sort_ties.




(** ** The built-ins do not depend on what Python leaves unspecified

    The model iterates over sets by [elements] before sorting and keeps
    the heap as a list.  Neither choice is observable: sorting a set gives
    the same list for every iteration order, and any two heaps with the
    same items pop the same item. *)

Section sorted_canonical.
Context {A : Type} (le : A → A → bool).
Hypothesis le_total : ∀ a b, le a b = true ∨ le b a = true.
Hypothesis le_trans : ∀ a b c, le a b = true → le b c = true → le a c = true.
Hypothesis le_antisym : ∀ a b, le a b = true → le b a = true → a = b.

Lemma insert_sorted_StronglySorted x l :
  StronglySorted (λ a b, le a b = true) l →
  StronglySorted (λ a b, le a b = true) (insert_sorted le x l).
Proof.
  induction l as [|y l IH]; simpl; intros Hl.
  - by repeat constructor.
  - apply StronglySorted_inv in Hl as [Hl Hy].
    destruct (le x y) eqn:Hxy.
    + constructor; [by constructor|].
      constructor; [done|]. eapply Forall_impl; [exact Hy|].
      intros z Hyz. by apply le_trans with y.
    + constructor; [by apply IH|].
      rewrite (insert_sorted_perm le x l). constructor; [|done].
      by destruct (le_total x y) as [Hle|Hle]; [rewrite Hle in Hxy|].
Qed.

Lemma sorted_StronglySorted l : StronglySorted (λ a b, le a b = true) (sorted le l).
Proof.
  induction l as [|x l IH]; simpl; [constructor|].
  by apply insert_sorted_StronglySorted.
Qed.

(** [sorted] gives one list for all the orders of its argument. *)
Lemma sorted_of_perm l1 l2 : l1 ≡ₚ l2 → sorted le l1 = sorted le l2.
Proof.
  intros Hperm.
  apply (StronglySorted_unique_strong (λ a b, le a b = true)).
  - intros a b _ _. apply le_antisym.
  - apply sorted_StronglySorted.
  - apply sorted_StronglySorted.
  - by rewrite !sorted_perm.
Qed.

End sorted_canonical.

Lemma string_leb_total (a b : string) : String.leb a b = true ∨ String.leb b a = true.
Proof. apply String.leb_total. Qed.

Lemma string_leb_trans (a b c : string) :
  String.leb a b = true → String.leb b c = true → String.leb a c = true.
Proof.
  intros Hab Hbc. apply Is_true_true. change (String.le a c). trans b.
  - unfold String.le. by rewrite Hab.
  - unfold String.le. by rewrite Hbc.
Qed.

(** [sorted(list(s))] does not depend on how Python iterates over [s]. *)
Lemma sorted_set_any_order (s : gset string) (iteration : list string) :
  iteration ≡ₚ elements s →
  sorted String.leb iteration = sorted String.leb (elements s).
Proof.
  apply sorted_of_perm.
  - apply string_leb_total.
  - apply string_leb_trans.
  - apply String.leb_antisym.
Qed.

Lemma pair_leb_spec (a b : string * string) :
  pair_leb a b = true ↔
  String.ltb a.1 b.1 = true ∨ (a.1 = b.1 ∧ String.leb a.2 b.2 = true).
Proof.
  unfold pair_leb. rewrite orb_true_iff, andb_true_iff, String.eqb_eq. tauto.
Qed.

Lemma sorted_pairs_any_order (s : gset (string * string))
    (iteration : list (string * string)) :
  iteration ≡ₚ elements s →
  sorted pair_leb iteration = sorted pair_leb (elements s).
Proof.
  apply sorted_of_perm.
  - intros [a1 a2] [b1 b2]. rewrite !pair_leb_spec. simpl.
    destruct (String.ltb a1 b1) eqn:Hab; [by left; left|].
    destruct (String.ltb b1 a1) eqn:Hba; [by right; left|].
    pose proof (string_ltb_total a1 b1 Hab Hba) as ->.
    destruct (string_leb_total a2 b2); [left | right]; by right.
  - intros [a1 a2] [b1 b2] [c1 c2]. rewrite !pair_leb_spec. simpl.
    intros [Hab|[-> Hab]] [Hbc|[-> Hbc]].
    + left. by apply string_ltb_trans with b1.
    + by left.
    + by left.
    + right. split; [done|]. by apply string_leb_trans with b2.
  - intros [a1 a2] [b1 b2]. rewrite !pair_leb_spec. simpl.
    intros [Hab|[-> Hab]] [Hba|[Heq Hba]].
    + pose proof (string_ltb_trans _ _ _ Hab Hba) as Haa.
      by rewrite string_ltb_irrefl in Haa.
    + subst. by rewrite string_ltb_irrefl in Hab.
    + by rewrite string_ltb_irrefl in Hba.
    + f_equal. by apply String.leb_antisym.
Qed.

(** Two heaps with the same items pop the same item and keep the same
    items: the result of [heappop] does not depend on the layout of the
    heap. *)
Lemma heappop_any_layout heap1 heap2 item1 rest1 :
  heap1 ≡ₚ heap2 →
  heappop heap1 = Some (item1, rest1) →
  ∃ rest2, heappop heap2 = Some (item1, rest2) ∧ rest1 ≡ₚ rest2.
Proof.
  intros Hperm Hpop1.
  destruct (heappop heap2) as [[item2 rest2]|] eqn:Hpop2.
  - destruct (heappop_Some _ _ _ Hpop1) as [Hp1 Hmin1].
    destruct (heappop_Some _ _ _ Hpop2) as [Hp2 Hmin2].
    assert (item1 = item2) as <-.
    { apply key_lt_total.
      - apply Hmin2. rewrite <- Hperm, Hp1. left.
      - apply Hmin1. rewrite Hperm, Hp2. left. }
    exists rest2. split; [done|].
    apply (Permutation_cons_inv (a := item1)). by rewrite <- Hp1, <- Hp2.
  - apply heappop_None in Hpop2 as ->. apply Permutation_nil_r in Hperm as ->.
    done.
Qed.

